(** * IOManager timer: shallow embedding of [iomgr_timer.hpp]

    The header declares the deadline record [timer_info], the queue
    comparator [compare_timer], the queue and handle types, the abstract
    class [timer] and its epoll engine [timer_epoll].  The bodies of the
    engine's methods are not part of the header; they are modelled from the
    design document and every such definition says so. *)

From Stdlib Require Import ZArith Lia Sorted.
From stdpp Require Import list gmap.

Local Open Scope Z_scope.

(** ** Machine integers and the monotonic clock *)

(** [uint64_t], the type of [nanos_after]: an integer with the proof that
    it is in range. *)
Definition in_uint64 (z : Z) : bool := (0 <=? z) && (z <? 2 ^ 64).

Record uint64_t : Type := mk_uint64 {
  u64_val : Z;
  u64_range : in_uint64 u64_val = true
}.

(** Conversion of an integer to the signed 64-bit representation that
    [std::chrono::nanoseconds] and [steady_clock::time_point] count in. *)
Definition wrap_int64 (z : Z) : Z := (z + 2 ^ 63) mod 2 ^ 64 - 2 ^ 63.

(** [std::chrono::steady_clock::time_point]: a tick count in nanoseconds. *)
Definition time_point : Type := Z.

(** [std::chrono::nanoseconds(nanos_after)]: the unsigned argument becomes
    the signed count of the duration. *)
Definition nanoseconds (nanos_after : uint64_t) : Z := wrap_int64 (u64_val nanos_after).

Lemma in_uint64_mod (z : Z) : in_uint64 (z mod 2 ^ 64) = true.
Proof.
  unfold in_uint64. pose proof (Z.mod_pos_bound z (2 ^ 64) eq_refl) as [Hlo Hhi].
  apply andb_true_intro. split; [apply Z.leb_le | apply Z.ltb_lt]; assumption.
Qed.

(** An integer argument passed for a [uint64_t] parameter: the value is
    taken modulo [2 ^ 64], as the conversion to an unsigned type does. *)
Definition to_uint64 (z : Z) : uint64_t := mk_uint64 (z mod 2 ^ 64) (in_uint64_mod z).

(** [time_point + duration].  A sum outside the signed range is undefined
    in the source language; the model wraps it, as the conversion above
    does. *)
Definition time_point_plus (t : time_point) (d : Z) : time_point := wrap_int64 (t + d).

(** ** [timer_info] *)

(** [void*] and [timer*]: addresses, [nullptr] is 0. *)
Definition ptr : Type := nat.
Definition nullptr : ptr := 0%nat.

(** The target of a [timer_callback_t] function object: a named piece of code.
    An empty function object is [None]. *)
Definition callable : Type := nat.
Definition timer_callback_t : Type := option callable.

Record timer_info : Type := mk_timer_info {
  expiry_time : time_point;
  cb : timer_callback_t;
  context : ptr;
  parent_timer : ptr
}.

(** [timer_info(timer* t)] *)
Definition timer_info_of_parent (t : ptr) : timer_info :=
  {| expiry_time := 0; cb := None; context := nullptr; parent_timer := t |}.

(** [timer_info(uint64_t nanos_after, void* cookie, timer_callback_t&& timer_fn, timer* t)];
    [now] is the value [steady_clock::now()] returns inside the constructor. *)
Definition timer_info_ctor (now : time_point) (nanos_after : uint64_t) (cookie : ptr)
    (timer_fn : timer_callback_t) (t : ptr) : timer_info :=
  {| expiry_time := time_point_plus now (nanoseconds nanos_after);
     cb := timer_fn;
     context := cookie;
     parent_timer := t |}.

(** ** [compare_timer] *)

(** [compare_timer::operator()] *)
Definition compare_timer (ti1 ti2 : timer_info) : bool :=
  expiry_time ti1 >? expiry_time ti2.

(** The reference reading of the comparator: the first expiry is strictly
    later than the second. *)
Definition expires_later (ti1 ti2 : timer_info) : Prop :=
  expiry_time ti2 < expiry_time ti1.

(** ** Handles *)

(** [timer_heap_t::handle_type] designates one node of the queue; a node is
    named by the number it was allocated under. *)
Definition handle_type : Type := nat.

(** [std::shared_ptr< io_device_t >]: [None] is the null pointer, otherwise
    the device the pointer designates. *)
Definition iodev_ptr : Type := option nat.

(** [timer_handle_t = std::variant< timer_heap_t::handle_type, std::shared_ptr< io_device_t > >] *)
Inductive timer_handle_t : Type :=
| heap_handle (h : handle_type)
| iodev_handle (d : iodev_ptr).

Definition null_timer_handle : timer_handle_t := iodev_handle None.

#[global] Instance timer_handle_t_eq_dec : EqDecision timer_handle_t.
Proof. solve_decision. Defined.

(** ** The queue type [timer_heap_t]

    [timer_heap_t] instantiates a heap of a library with [timer_info] as the
    value type and [compare_timer] as the ordering.  The library is not part
    of the repository, so the queue is taken through the interface the
    header relies on: a mutable priority queue with handles.  The library
    hands out as [top] a greatest element of the ordering it is given, that
    is a record that [compare_timer] ranks before no other record of the
    queue; as [compare_timer ti1 ti2] holds when [ti1] expires later, the
    top is an entry of least expiry.

    A node of the queue is a record together with the handle that designates
    it; a handle names the allocation of the node and is supplied by the
    caller of [heap_emplace]. *)

Definition heap_node : Type := handle_type * timer_info.

(** The order in which a batch comes out: by expiry, ascending. *)
Definition expiry_le (a b : heap_node) : Prop := expiry_time a.2 <= expiry_time b.2.
Definition expiry_lt (a b : heap_node) : Prop := expiry_time a.2 < expiry_time b.2.

Class TimerHeap : Type := {
  timer_heap_t : Type;
  (** the default-constructed queue *)
  heap_empty : timer_heap_t;
  (** [emplace], [top], [pop] and [erase (handle)] *)
  heap_emplace : heap_node -> timer_heap_t -> timer_heap_t;
  heap_top : timer_heap_t -> option heap_node;
  heap_pop : timer_heap_t -> timer_heap_t;
  heap_erase : handle_type -> timer_heap_t -> timer_heap_t;
  (** the nodes a queue holds, and the invariant of its representation *)
  heap_nodes : timer_heap_t -> list heap_node;
  heap_wf : timer_heap_t -> Prop;

  heap_empty_wf : heap_wf heap_empty;
  heap_empty_nodes : heap_nodes heap_empty = [];
  heap_wf_NoDup : forall h, heap_wf h -> NoDup (heap_nodes h).*1;
  (** [emplace] adds the node *)
  heap_emplace_wf : forall k v h,
    heap_wf h -> k ∉ (heap_nodes h).*1 -> heap_wf (heap_emplace (k, v) h);
  heap_emplace_nodes : forall k v h,
    heap_wf h -> k ∉ (heap_nodes h).*1 ->
    heap_nodes (heap_emplace (k, v) h) ≡ₚ (k, v) :: heap_nodes h;
  (** [top] is a node that [compare_timer] ranks before no other *)
  heap_top_None : forall h,
    heap_wf h -> heap_top h = None -> heap_nodes h = [];
  heap_top_Some : forall h n,
    heap_wf h -> heap_top h = Some n ->
    n ∈ heap_nodes h /\
    forall n', n' ∈ heap_nodes h -> compare_timer n.2 n'.2 = false;
  (** [pop] removes the top node *)
  heap_pop_wf : forall h n,
    heap_wf h -> heap_top h = Some n -> heap_wf (heap_pop h);
  heap_pop_nodes : forall h n,
    heap_wf h -> heap_top h = Some n -> heap_nodes h ≡ₚ n :: heap_nodes (heap_pop h);
  (** [erase] removes the node a handle designates; as the design document
      asks of the Deadline Queue, it does nothing when the handle designates
      no node of the queue *)
  heap_erase_wf : forall k h, heap_wf h -> heap_wf (heap_erase k h);
  heap_erase_nodes : forall k h,
    heap_wf h ->
    heap_nodes (heap_erase k h) ≡ₚ filter (fun n : heap_node => n.1 <> k) (heap_nodes h);
  heap_erase_absent : forall k h,
    k ∉ (heap_nodes h).*1 -> heap_erase k h = h
}.

(** ** Devices, errors, invocations *)

(** Modelled from the spec: [io_device_t] is only forward-declared in the
    header.  The design document describes a timer descriptor by its armed
    deadline and period and by the reactors it is registered with; a
    dedicated descriptor carries the callback record of its recurring
    timer. *)
Record io_device_t : Type := mk_io_device {
  dev_armed : option time_point;
  dev_period : Z;
  dev_tinfo : option timer_info;
  dev_thread_local : bool
}.

(** The descriptor a readiness notification is about. *)
Inductive iodev_sel : Type :=
| common_dev
| recurring_dev (d : nat).

(** Modelled from the spec: the failures [schedule] reports (section 7 of
    the design document). *)
Inductive sched_error : Type :=
| E_STOPPED
| E_NEGATIVE_DELAY
| E_EMPTY_CALLBACK
| E_NO_DESCRIPTOR.

(** One call of a timer callback: the code called, the context passed and
    the timer it was scheduled under. *)
Record invocation : Type := mk_invocation {
  inv_fn : callable;
  inv_context : ptr;
  inv_timer : timer_handle_t
}.

Section Scheduler.
Context {TH : TimerHeap}.

(** ** [class timer]

    The members of the class but for [m_list_mutex]: what is done under the
    mutex is taken in one piece, and what the design document lets happen
    with the mutex released is taken in pieces between which other requests
    are served. *)

Record timer : Type := mk_timer {
  m_timer_list : timer_heap_t;
  m_is_thread_local : bool;
  m_stopped : bool
}.

(** [timer(bool is_thread_local)] with the default member initialisers. *)
Definition timer_ctor (is_thread_local : bool) : timer :=
  {| m_timer_list := heap_empty;
     m_is_thread_local := is_thread_local;
     m_stopped := false |}.

(** ** [class timer_epoll]

    Besides the members of the class the record carries the address of the
    object ([this]), the two allocation counters that name queue nodes and
    devices, and [in_flight]: the entries that the notification handler has
    popped and whose callbacks it has not called yet (the batch is a local
    of the handler, which calls the callbacks with the mutex released). *)
Record timer_epoll : Type := mk_timer_epoll {
  base : timer;
  m_common_timer_io_dev : option io_device_t;
  m_recurring_timer_iodevs : gmap nat io_device_t;
  this : ptr;
  next_node : handle_type;
  next_iodev : nat;
  in_flight : list heap_node
}.

Definition set_timer_list (s : timer_epoll) (q : timer_heap_t) : timer_epoll :=
  {| base := {| m_timer_list := q;
                m_is_thread_local := m_is_thread_local (base s);
                m_stopped := m_stopped (base s) |};
     m_common_timer_io_dev := m_common_timer_io_dev s;
     m_recurring_timer_iodevs := m_recurring_timer_iodevs s;
     this := this s; next_node := next_node s; next_iodev := next_iodev s;
     in_flight := in_flight s |}.

Definition set_common_timer_io_dev (s : timer_epoll) (io : option io_device_t) : timer_epoll :=
  {| base := base s;
     m_common_timer_io_dev := io;
     m_recurring_timer_iodevs := m_recurring_timer_iodevs s;
     this := this s; next_node := next_node s; next_iodev := next_iodev s;
     in_flight := in_flight s |}.

Definition set_recurring (s : timer_epoll) (m : gmap nat io_device_t) : timer_epoll :=
  {| base := base s;
     m_common_timer_io_dev := m_common_timer_io_dev s;
     m_recurring_timer_iodevs := m;
     this := this s; next_node := next_node s; next_iodev := next_iodev s;
     in_flight := in_flight s |}.

Definition set_in_flight (s : timer_epoll) (batch : list heap_node) : timer_epoll :=
  {| base := base s;
     m_common_timer_io_dev := m_common_timer_io_dev s;
     m_recurring_timer_iodevs := m_recurring_timer_iodevs s;
     this := this s; next_node := next_node s; next_iodev := next_iodev s;
     in_flight := batch |}.

(** ** The Deadline Queue operations of the design document *)

(** Modelled from the spec: [peek_min], the expiry of the queue's top entry
    (the body of the engine that reads it is not in the header). *)
Definition peek_min (q : timer_heap_t) : option time_point :=
  (fun n : heap_node => expiry_time n.2) <$> heap_top q.

(** Modelled from the spec: [pop_all_due now] pops the top entry for as long
    as its expiry is not after [now].  The loop runs at most once per stored
    entry, which is the fuel it is given. *)
Fixpoint pop_due (fuel : nat) (now : time_point) (q : timer_heap_t)
    : list heap_node * timer_heap_t :=
  match fuel with
  | O => ([], q)
  | S fuel' =>
      match heap_top q with
      | Some n =>
          if expiry_time n.2 <=? now
          then let '(due, q') := pop_due fuel' now (heap_pop q) in (n :: due, q')
          else ([], q)
      | None => ([], q)
      end
  end.

(** Modelled from the spec: [pop_all_due], the due entries in the order
    they are popped, and the queue that is left. *)
Definition pop_all_due (now : time_point) (q : timer_heap_t)
    : list heap_node * timer_heap_t :=
  pop_due (length (heap_nodes q)) now q.

(** ** The engine's methods *)

(** Modelled from the spec: [timer_epoll::timer_epoll(bool)], whose body is
    not in the header.  The base class is constructed, the members are
    default-initialised and the shared descriptor is left to be created on
    first use.  [self] is the address of the object. *)
Definition timer_epoll_ctor (self : ptr) (is_per_thread : bool) : timer_epoll :=
  {| base := timer_ctor is_per_thread;
     m_common_timer_io_dev := None;
     m_recurring_timer_iodevs := ∅;
     this := self; next_node := 0%nat; next_iodev := 0%nat;
     in_flight := [] |}.

(** Modelled from the spec: [setup_timer_fd], declared in the header without
    a body: asks the operating system for a timer descriptor and registers
    it with the reactors in scope; [os_ok] tells whether the operating
    system grants one. *)
Definition setup_timer_fd (s : timer_epoll) (os_ok : bool) : option io_device_t :=
  if os_ok
  then Some {| dev_armed := None; dev_period := 0; dev_tinfo := None;
               dev_thread_local := m_is_thread_local (base s) |}
  else None.

(** Modelled from the spec: arming a descriptor for a deadline, or
    disarming it ([None]). *)
Definition arm (io : io_device_t) (deadline : option time_point) : io_device_t :=
  {| dev_armed := deadline; dev_period := dev_period io;
     dev_tinfo := dev_tinfo io; dev_thread_local := dev_thread_local io |}.

(** Modelled from the spec: [read_and_ack] of the operating system's timer
    primitive (section 6 of the design document) on the shared descriptor.
    The expiration is consumed; the descriptor is not periodic, so it is
    disarmed until it is armed again, which is the state the handler
    "leaves it" in when no entry remains. *)
Definition read_and_ack (io : io_device_t) : io_device_t := arm io None.

(** Modelled from the spec: the test of the branch that rejects a negative
    delay, on the argument the interface passes. *)
Definition delay_is_negative (nanos_after : uint64_t) : bool := u64_val nanos_after <? 0.

(** Modelled from the spec: "this entry becomes the new minimum", that is
    the inserted node is the queue's top entry. *)
Definition is_new_minimum (k : handle_type) (q : timer_heap_t) : bool :=
  match heap_top q with
  | Some n => bool_decide (n.1 = k)
  | None => false
  end.

(** Modelled from the spec: the shared descriptor the one-shot path works
    on, created on first use. *)
Definition oneshot_dev (s : timer_epoll) (os_ok : bool) : option io_device_t :=
  match m_common_timer_io_dev s with
  | Some io => Some io
  | None => setup_timer_fd s os_ok
  end.

(** Modelled from the spec: the one-shot half of [schedule].  The entry is
    inserted; when it has become the queue's minimum the shared descriptor
    is armed to its expiry; the descriptor is created on first use. *)
Definition schedule_oneshot (s : timer_epoll) (now : time_point) (nanos_after : uint64_t)
    (cookie : ptr) (timer_fn : timer_callback_t) (os_ok : bool)
    : timer_epoll * (sched_error + timer_handle_t) :=
  match oneshot_dev s os_ok with
  | None => (s, inl E_NO_DESCRIPTOR)
  | Some io =>
      let ti := timer_info_ctor now nanos_after cookie timer_fn (this s) in
      let k := next_node s in
      let q := heap_emplace (k, ti) (m_timer_list (base s)) in
      let io' := if is_new_minimum k q then arm io (Some (expiry_time ti)) else io in
      ({| base := {| m_timer_list := q;
                     m_is_thread_local := m_is_thread_local (base s);
                     m_stopped := m_stopped (base s) |};
          m_common_timer_io_dev := Some io';
          m_recurring_timer_iodevs := m_recurring_timer_iodevs s;
          this := this s; next_node := S k; next_iodev := next_iodev s;
          in_flight := in_flight s |},
       inr (heap_handle k))
  end.

(** Modelled from the spec: the recurring half of [schedule].  A dedicated
    descriptor is created, armed with the delay as its period and added to
    the recurring set. *)
Definition schedule_recurring (s : timer_epoll) (now : time_point) (nanos_after : uint64_t)
    (cookie : ptr) (timer_fn : timer_callback_t) (os_ok : bool)
    : timer_epoll * (sched_error + timer_handle_t) :=
  match setup_timer_fd s os_ok with
  | None => (s, inl E_NO_DESCRIPTOR)
  | Some io =>
      let ti := timer_info_ctor now nanos_after cookie timer_fn (this s) in
      let d := next_iodev s in
      let io' := {| dev_armed := Some (expiry_time ti);
                    dev_period := nanoseconds nanos_after;
                    dev_tinfo := Some ti;
                    dev_thread_local := dev_thread_local io |} in
      ({| base := base s;
          m_common_timer_io_dev := m_common_timer_io_dev s;
          m_recurring_timer_iodevs := <[d := io']> (m_recurring_timer_iodevs s);
          this := this s; next_node := next_node s; next_iodev := S d;
          in_flight := in_flight s |},
       inr (iodev_handle (Some d)))
  end.

(** Modelled from the spec: [timer_epoll::schedule].  The signature is the
    header's; [now] and [os_ok] are what the clock and the operating system
    answer during the call. *)
Definition schedule (s : timer_epoll) (now : time_point) (nanos_after : uint64_t)
    (recurring : bool) (cookie : ptr) (timer_fn : timer_callback_t) (os_ok : bool)
    : timer_epoll * (sched_error + timer_handle_t) :=
  if m_stopped (base s) then (s, inl E_STOPPED)
  else if delay_is_negative nanos_after then (s, inl E_NEGATIVE_DELAY)
  else match timer_fn with
       | None => (s, inl E_EMPTY_CALLBACK)
       | Some _ =>
           if recurring
           then schedule_recurring s now nanos_after cookie timer_fn os_ok
           else schedule_oneshot s now nanos_after cookie timer_fn os_ok
       end.

(** Modelled from the spec: [timer_epoll::cancel] (section 4.2 of the design
    document).  A queue handle removes its entry if the entry is still in
    the queue, and that is all: the shared descriptor is not touched.  A
    device handle closes the device and takes it out of the recurring set;
    the null handle changes nothing.  The method returns nothing, so there
    is no failure to report. *)
Definition cancel (s : timer_epoll) (thandle : timer_handle_t) : timer_epoll :=
  match thandle with
  | heap_handle k => set_timer_list s (heap_erase k (m_timer_list (base s)))
  | iodev_handle None => s
  | iodev_handle (Some d) => set_recurring s (delete d (m_recurring_timer_iodevs s))
  end.

(** Modelled from the spec: [timer_epoll::stop].  Every recurring timer is
    cancelled, the queue is emptied without a callback being called, the
    shared descriptor is released and the scheduler is marked stopped.  A
    batch that the notification handler has popped is the handler's, not
    the queue's: [stop] does not reach it. *)
Definition stop (s : timer_epoll) : timer_epoll :=
  let s1 := foldr (fun d acc => cancel acc (iodev_handle (Some d))) s
                  (map_to_list (m_recurring_timer_iodevs s)).*1 in
  {| base := {| m_timer_list := heap_empty;
                m_is_thread_local := m_is_thread_local (base s1);
                m_stopped := true |};
     m_common_timer_io_dev := None;
     m_recurring_timer_iodevs := m_recurring_timer_iodevs s1;
     this := this s1; next_node := next_node s1; next_iodev := next_iodev s1;
     in_flight := in_flight s1 |}.

(** Modelled from the spec: the calls a batch of due entries gives rise
    to, in the order of the batch. *)
Definition invocations_of (due : list heap_node) : list invocation :=
  omap (fun n : heap_node =>
          (fun f => mk_invocation f (context n.2) (heap_handle n.1)) <$> cb n.2) due.

(** ** The notification handler

    Section 4.3 of the design document gives the handler of the shared
    descriptor three parts: the descriptor is acknowledged and the due
    entries are popped under the lock; the lock is released and the
    callbacks of the batch are called; the lock is taken again and the
    descriptor is re-armed.  Each part is a function of its own, so that
    the requests that are served while the lock is free can be placed
    between them. *)

(** Modelled from the spec: the first part of the handler.  Without a
    shared descriptor there is nothing to be notified of. *)
Definition pop_due_timers (s : timer_epoll) (now : time_point) : timer_epoll :=
  match m_common_timer_io_dev s with
  | None => s
  | Some io =>
      {| base := {| m_timer_list := (pop_all_due now (m_timer_list (base s))).2;
                    m_is_thread_local := m_is_thread_local (base s);
                    m_stopped := m_stopped (base s) |};
         m_common_timer_io_dev := Some (read_and_ack io);
         m_recurring_timer_iodevs := m_recurring_timer_iodevs s;
         this := this s; next_node := next_node s; next_iodev := next_iodev s;
         in_flight := in_flight s ++ (pop_all_due now (m_timer_list (base s))).1 |}
  end.

(** Modelled from the spec: one call of the second part: with the lock
    released the callback of the first entry of the batch is called with
    its context. *)
Definition call_next (s : timer_epoll) : timer_epoll * list invocation :=
  match in_flight s with
  | [] => (s, [])
  | n :: batch => (set_in_flight s batch, invocations_of [n])
  end.

(** Modelled from the spec: the last part of the handler: under the lock
    again, the shared descriptor is armed to the new minimum if an entry
    remains, and left as it is otherwise. *)
Definition rearm_common_timer (s : timer_epoll) : timer_epoll :=
  match m_common_timer_io_dev s, peek_min (m_timer_list (base s)) with
  | Some io, Some m => set_common_timer_io_dev s (Some (arm io (Some m)))
  | _, _ => s
  end.

(** Modelled from the spec: the handler of a dedicated descriptor, which is
    registered with the reactor for as long as it is in the recurring set:
    the timer's callback is called and the kernel arms the next period. *)
Definition on_recurring_timer (s : timer_epoll) (d : nat) : timer_epoll * list invocation :=
  match m_recurring_timer_iodevs s !! d with
  | None => (s, [])
  | Some io =>
      (set_recurring s
         (<[d := arm io ((fun t => time_point_plus t (dev_period io)) <$> dev_armed io)]>
            (m_recurring_timer_iodevs s)),
       match dev_tinfo io with
       | Some ti =>
           match cb ti with
           | Some f => [mk_invocation f (context ti) (iodev_handle (Some d))]
           | None => []
           end
       | None => []
       end)
  end.

(** Modelled from the spec: [on_timer_armed], declared in the header without
    a body: the handler run from its first part to its last with no other
    request served in between. *)
Definition on_timer_armed (s : timer_epoll) (dev : iodev_sel) (now : time_point)
    : timer_epoll * list invocation :=
  match dev with
  | common_dev =>
      (rearm_common_timer (set_in_flight (pop_due_timers s now) []),
       invocations_of (in_flight (pop_due_timers s now)))
  | recurring_dev d => on_recurring_timer s d
  end.

(** Modelled from the spec: [on_timer_fd_notification], declared static in
    the header: it finds the scheduler that owns the device and hands the
    notification to it. *)
Definition on_timer_fd_notification := on_timer_armed.

(** ** Runs of a scheduler *)

(** What happens to a scheduler, one piece at a time: the three methods of
    the interface, each with what the clock and the operating system answer;
    the reactor's notification, on which the handler of a dedicated
    descriptor runs, or the first part of the handler of the shared one;
    one callback of the batch; and the last part of that handler. *)
Inductive request : Type :=
| Schedule (now : time_point) (nanos_after : uint64_t) (recurring : bool)
           (cookie : ptr) (timer_fn : timer_callback_t) (os_ok : bool)
| Cancel (thandle : timer_handle_t)
| Stop
| Notify (dev : iodev_sel) (now : time_point)
| Callback
| Rearm.

Definition step (s : timer_epoll) (r : request) : timer_epoll * list invocation :=
  match r with
  | Schedule now nanos_after recurring cookie timer_fn os_ok =>
      ((schedule s now nanos_after recurring cookie timer_fn os_ok).1, [])
  | Cancel thandle => (cancel s thandle, [])
  | Stop => (stop s, [])
  | Notify common_dev now => (pop_due_timers s now, [])
  | Notify (recurring_dev d) now => on_recurring_timer s d
  | Callback => call_next s
  | Rearm => (rearm_common_timer s, [])
  end.

(** The state after a list of requests and the callbacks called on the way. *)
Fixpoint run (s : timer_epoll) (rs : list request) : timer_epoll * list invocation :=
  match rs with
  | [] => (s, [])
  | r :: rs' =>
      let '(s1, calls1) := step s r in
      let '(s2, calls2) := run s1 rs' in
      (s2, calls1 ++ calls2)
  end.

(** The pieces of one notification of the shared descriptor that finds
    [batch] due: the first part, a call for each entry, the last part. *)
Definition handler_requests (now : time_point) (batch : list heap_node) : list request :=
  Notify common_dev now :: replicate (length batch) Callback ++ [Rearm].

(** The states a scheduler constructed at [self] gets into. *)
Inductive reachable (self : ptr) (is_per_thread : bool) : timer_epoll -> Prop :=
| reachable_init : reachable self is_per_thread (timer_epoll_ctor self is_per_thread)
| reachable_step s r :
    reachable self is_per_thread s -> reachable self is_per_thread (step s r).1.


Definition is_schedule (r : request) : bool :=
  match r with
  | Schedule _ _ _ _ _ _ => true
  | _ => false
  end.

(** The deadline the shared descriptor is armed for: [None] when the
    descriptor is disarmed or does not exist. *)
Definition armed_deadline (s : timer_epoll) : option time_point :=
  m_common_timer_io_dev s ≫= dev_armed.

(** The invariant of the design document: the shared descriptor is armed
    for the queue's minimum, and is disarmed or absent when the queue is
    empty. *)
Definition descriptor_tracks_minimum (s : timer_epoll) : Prop :=
  armed_deadline s = peek_min (m_timer_list (base s)).




(** The entries of [es] inserted one after the other into an empty queue. *)
Definition insert_all (es : list heap_node) : timer_heap_t :=
  foldl (fun q e => heap_emplace e q) heap_empty es.


(** The handle's entry is in the queue, or its device in the recurring
    set. *)
Definition timer_live (s : timer_epoll) (h : timer_handle_t) : Prop :=
  match h with
  | heap_handle k => k ∈ (heap_nodes (m_timer_list (base s))).*1
  | iodev_handle (Some d) => is_Some (m_recurring_timer_iodevs s !! d)
  | iodev_handle None => False
  end.





(** Nothing is scheduled: no entry, no recurring device, no shared
    descriptor. *)
Definition no_timers (s : timer_epoll) : Prop :=
  heap_nodes (m_timer_list (base s)) = [] /\
  m_recurring_timer_iodevs s = ∅ /\
  m_common_timer_io_dev s = None.

(** The entries a scheduler holds: those of the queue and those of the
    handler's batch. *)
Definition entries (s : timer_epoll) : list heap_node :=
  heap_nodes (m_timer_list (base s)) ++ in_flight s.

(** What every run keeps true: the queue is well formed, the handles of the
    entries were handed out by the node counter, no two entries share a
    handle, and there is a shared descriptor as long as the queue holds an
    entry. *)
Definition state_ok (s : timer_epoll) : Prop :=
  heap_wf (m_timer_list (base s)) /\
  Forall (fun n : heap_node => (n.1 < next_node s)%nat) (entries s) /\
  NoDup (entries s).*1 /\
  (m_common_timer_io_dev s = None -> heap_nodes (m_timer_list (base s)) = []).

End Scheduler.

(** ** A binomial heap behind the interface

    A reference queue for [timer_heap_t]: the binomial heap the alias names,
    as a forest of heap-ordered trees kept by ascending degree.  Two trees
    of equal degree are merged by making the one whose record
    [compare_timer] ranks first a child of the other.  It shows that the
    interface can be met, and the concrete schedulers at the end of the
    file run on it; how it places two entries of equal expiry is its own
    choice, which the interface leaves open and on which no statement of
    this file rests. *)
Module BinomialHeap.

#[local] Unset Elimination Schemes.
#[local] Set Warnings "-register-all".

Inductive tree : Type :=
| Node (n : heap_node) (children : list tree).

Definition root (t : tree) : heap_node := match t with Node n _ => n end.
Definition children (t : tree) : list tree := match t with Node _ cs => cs end.
Definition child_count (t : tree) : nat := length (children t).

Fixpoint tree_nodes (t : tree) : list heap_node :=
  match t with
  | Node n cs => n :: flat_map tree_nodes cs
  end.

Definition nodes (trees : list tree) : list heap_node := flat_map tree_nodes trees.

(** The tree whose root [compare_timer] ranks first goes below the other;
    on a tie the first argument stays the root (the other choice would
    meet the interface as well). *)
Definition merge_trees (t1 t2 : tree) : tree :=
  if compare_timer (root t1).2 (root t2).2
  then Node (root t2) (children t2 ++ [t1])
  else Node (root t1) (children t1 ++ [t2]).

(** Adds a tree to a forest, merging for as long as a tree of the same
    degree is in the way. *)
Fixpoint insert_node (t : tree) (trees : list tree) : list tree :=
  match trees with
  | [] => [t]
  | t' :: rest =>
      if (child_count t <? child_count t')%nat then t :: trees
      else if (child_count t =? child_count t')%nat then insert_node (merge_trees t t') rest
      else t' :: insert_node t rest
  end.

Definition merge_nodes (cs trees : list tree) : list tree :=
  foldl (fun acc c => insert_node c acc) trees cs.

Definition emplace (n : heap_node) (trees : list tree) : list tree :=
  insert_node (Node n []) trees.

(** The first root that no other root is ranked below, and the other
    trees. *)
Fixpoint top_split (trees : list tree) : option (tree * list tree) :=
  match trees with
  | [] => None
  | t :: rest =>
      match top_split rest with
      | None => Some (t, [])
      | Some (m, others) =>
          if compare_timer (root t).2 (root m).2
          then Some (m, t :: others)
          else Some (t, rest)
      end
  end.

Definition top (trees : list tree) : option heap_node :=
  (fun p : tree * list tree => root p.1) <$> top_split trees.

Definition pop (trees : list tree) : list tree :=
  match top_split trees with
  | Some (t, others) => merge_nodes (children t) others
  | None => trees
  end.

(** One step of [sift_up] below a node [n]: the first child that holds the
    wanted node is sifted, its root is handed upwards and [n] takes the
    root's place. *)
Definition sift_children (sift : tree -> option tree) (n : heap_node)
    : list tree -> option (heap_node * list tree) :=
  fix go (cs : list tree) : option (heap_node * list tree) :=
    match cs with
    | [] => None
    | c :: cs' =>
        match sift c with
        | Some c' => Some (root c', Node n (children c') :: cs')
        | None => (fun p : heap_node * list tree => (p.1, c :: p.2)) <$> go cs'
        end
    end.

(** Moves the node designated by [k] to the root of its tree, every
    ancestor going one level down. *)
Fixpoint sift_up (k : handle_type) (t : tree) : option tree :=
  match t with
  | Node n cs =>
      if bool_decide (n.1 = k) then Some t
      else (fun p : heap_node * list tree => Node p.1 p.2) <$> sift_children (sift_up k) n cs
  end.

(** The tree holding [k], sifted, taken out of the forest. *)
Fixpoint extract (k : handle_type) (trees : list tree) : option (tree * list tree) :=
  match trees with
  | [] => None
  | t :: rest =>
      match sift_up k t with
      | Some t' => Some (t', rest)
      | None => (fun p : tree * list tree => (p.1, t :: p.2)) <$> extract k rest
      end
  end.

Definition erase (k : handle_type) (trees : list tree) : list tree :=
  match extract k trees with
  | Some (t, others) => merge_nodes (children t) others
  | None => trees
  end.

(** Every node is ranked before none of its children's roots, all the way
    down. *)
Fixpoint heap_ordered (t : tree) : Prop :=
  match t with
  | Node n cs =>
      (fix all (cs : list tree) : Prop :=
         match cs with
         | [] => True
         | c :: cs' =>
             (compare_timer n.2 (root c).2 = false /\ heap_ordered c) /\ all cs'
         end) cs
  end.

Definition wf (trees : list tree) : Prop :=
  Forall heap_ordered trees /\ NoDup (nodes trees).*1.

End BinomialHeap.

(** * Properties *)

(** ** Lists *)

Lemma filter_keeps_all {A} (P : A -> Prop) `{!forall x, Decision (P x)} (l : list A) :
  Forall P l -> filter P l = l.
Proof.
  induction 1 as [|x l Hx Hl IH]; [reflexivity|].
  rewrite filter_cons_True by exact Hx. rewrite IH. reflexivity.
Qed.

Lemma filter_keeps_none {A} (P : A -> Prop) `{!forall x, Decision (P x)} (l : list A) :
  Forall (fun x => ~ P x) l -> filter P l = [].
Proof.
  induction 1 as [|x l Hx Hl IH]; [reflexivity|].
  rewrite filter_cons_False by exact Hx. exact IH.
Qed.

Lemma StronglySorted_lookup {A} (R : A -> A -> Prop) (l : list A) (i j : nat) (a b : A) :
  StronglySorted R l -> l !! i = Some a -> l !! j = Some b -> (i < j)%nat -> R a b.
Proof.
  intros Hsorted. revert i j. induction Hsorted as [|x l Hsorted IH Hall]; intros i j Hi Hj Hlt.
  - rewrite lookup_nil in Hi. discriminate.
  - destruct j as [|j]; [lia|]. cbn in Hj. destruct i as [|i]; cbn in Hi.
    + injection Hi as <-. rewrite Forall_forall in Hall. apply Hall.
      apply list_elem_of_lookup. eauto.
    + apply (IH i j); [assumption.. | lia].
Qed.

(** ** Machine integers *)

Lemma u64_bounds (d : uint64_t) : 0 <= u64_val d < 2 ^ 64.
Proof.
  pose proof (u64_range d) as Hr. unfold in_uint64 in Hr.
  apply andb_prop in Hr as [H0 H1]. apply Z.leb_le in H0. apply Z.ltb_lt in H1. lia.
Qed.

Lemma wrap_int64_small (z : Z) : - 2 ^ 63 <= z < 2 ^ 63 -> wrap_int64 z = z.
Proof. intros Hz. unfold wrap_int64. rewrite Z.mod_small; lia. Qed.

Lemma wrap_int64_plus (a b : Z) : wrap_int64 (a + wrap_int64 b) = wrap_int64 (a + b).
Proof.
  unfold wrap_int64. f_equal.
  replace (a + ((b + 2 ^ 63) mod 2 ^ 64 - 2 ^ 63) + 2 ^ 63)
    with (a + (b + 2 ^ 63) mod 2 ^ 64) by lia.
  rewrite Zplus_mod_idemp_r. f_equal. lia.
Qed.

Lemma timer_info_ctor_expiry now nanos_after cookie timer_fn t :
  - 2 ^ 63 <= now -> now + u64_val nanos_after < 2 ^ 63 ->
  expiry_time (timer_info_ctor now nanos_after cookie timer_fn t) = now + u64_val nanos_after.
Proof.
  intros Hnow Hsum. pose proof (u64_bounds nanos_after).
  cbn. unfold time_point_plus, nanoseconds. rewrite wrap_int64_plus.
  apply wrap_int64_small. lia.
Qed.

(** X1.  The constructor of [timer_info] stores the callback, the cookie and
    the parent it is given, and an expiry that is the time of the call plus
    the delay whenever that sum fits the clock's signed 64-bit count. *)
Theorem timer_info_ctor_fields (now : time_point) (nanos_after : uint64_t) (cookie : ptr)
    (timer_fn : timer_callback_t) (t : ptr) :
  cb (timer_info_ctor now nanos_after cookie timer_fn t) = timer_fn /\
  context (timer_info_ctor now nanos_after cookie timer_fn t) = cookie /\
  parent_timer (timer_info_ctor now nanos_after cookie timer_fn t) = t /\
  (- 2 ^ 63 <= now -> now + u64_val nanos_after < 2 ^ 63 ->
   expiry_time (timer_info_ctor now nanos_after cookie timer_fn t)
   = now + u64_val nanos_after).
Proof.
  split; [reflexivity|]. split; [reflexivity|]. split; [reflexivity|].
  apply timer_info_ctor_expiry.
Qed.

(** X2.  A delay of [2 ^ 63] nanoseconds or more does not fit the signed
    count of the clock: at a time that is not negative the constructor of
    [timer_info] gives such a timer an expiry [2 ^ 64] nanoseconds short of
    the time of the call plus the delay, which is before the time of the
    call. *)
Theorem timer_info_ctor_long_delay (now : time_point) (nanos_after : uint64_t) (cookie : ptr)
    (timer_fn : timer_callback_t) (t : ptr) :
  0 <= now < 2 ^ 63 -> 2 ^ 63 <= u64_val nanos_after ->
  expiry_time (timer_info_ctor now nanos_after cookie timer_fn t)
  = now + u64_val nanos_after - 2 ^ 64 /\
  expiry_time (timer_info_ctor now nanos_after cookie timer_fn t) < now.
Proof.
  intros Hnow Hlong. pose proof (u64_bounds nanos_after) as Hd.
  assert (expiry_time (timer_info_ctor now nanos_after cookie timer_fn t)
          = now + u64_val nanos_after - 2 ^ 64) as Heq.
  { cbn. unfold time_point_plus, nanoseconds. rewrite wrap_int64_plus. unfold wrap_int64.
    replace (now + u64_val nanos_after + 2 ^ 63)
      with ((now + u64_val nanos_after + 2 ^ 63 - 2 ^ 64) + 1 * 2 ^ 64) by lia.
    rewrite Z.mod_add by lia. rewrite Z.mod_small by lia. lia. }
  split; [exact Heq | lia].
Qed.

Lemma wrap_int64_wrapped (z : Z) : 2 ^ 63 <= z < 2 ^ 64 -> wrap_int64 z = z - 2 ^ 64.
Proof.
  intros Hz. unfold wrap_int64.
  replace (z + 2 ^ 63) with ((z + 2 ^ 63 - 2 ^ 64) + 1 * 2 ^ 64) by lia.
  rewrite Z.mod_add by lia. rewrite Z.mod_small by lia. lia.
Qed.

Lemma wrap_int64_range (z : Z) : - 2 ^ 63 <= wrap_int64 z < 2 ^ 63.
Proof.
  unfold wrap_int64. pose proof (Z.mod_pos_bound (z + 2 ^ 63) (2 ^ 64) eq_refl). lia.
Qed.

Lemma nanoseconds_to_uint64 (z : Z) : nanoseconds (to_uint64 z) = wrap_int64 z.
Proof.
  unfold nanoseconds, to_uint64, wrap_int64. cbn [u64_val].
  rewrite Zplus_mod_idemp_l. reflexivity.
Qed.

(** X4.  The conversions between the unsigned delay of the interface and
    the signed nanosecond count of the clock undo each other.  A signed
    value passed for the delay comes back unchanged as the duration, so
    that the record expires at the time of the call plus that value, before
    the call when the value is negative; and the duration of a delay,
    passed for a delay again, is that delay, so that no two delays have the
    same duration. *)
Theorem delay_conversion_round_trips :
  (forall z : Z, - 2 ^ 63 <= z < 2 ^ 63 -> nanoseconds (to_uint64 z) = z) /\
  (forall (now z : Z) (cookie : ptr) (timer_fn : timer_callback_t) (t : ptr),
     - 2 ^ 63 <= z < 2 ^ 63 -> - 2 ^ 63 <= now + z < 2 ^ 63 ->
     expiry_time (timer_info_ctor now (to_uint64 z) cookie timer_fn t) = now + z) /\
  (forall d : uint64_t, u64_val (to_uint64 (nanoseconds d)) = u64_val d) /\
  (forall d1 d2 : uint64_t, nanoseconds d1 = nanoseconds d2 -> u64_val d1 = u64_val d2).
Proof.
  assert (forall d : uint64_t, u64_val (to_uint64 (nanoseconds d)) = u64_val d) as Hback.
  { intros d. pose proof (u64_bounds d) as Hd. unfold nanoseconds. cbn [to_uint64 u64_val].
    destruct (Z.lt_ge_cases (u64_val d) (2 ^ 63)) as [Hsmall|Hlarge].
    - rewrite wrap_int64_small by lia. apply Z.mod_small. lia.
    - rewrite wrap_int64_wrapped by lia.
      replace (u64_val d - 2 ^ 64) with (u64_val d + (-1) * 2 ^ 64) by lia.
      rewrite Z.mod_add by lia. apply Z.mod_small. lia. }
  split; [intros z Hz; rewrite nanoseconds_to_uint64; apply wrap_int64_small, Hz|].
  split.
  - intros now z cookie timer_fn t Hz Hsum. cbn [timer_info_ctor expiry_time].
    unfold time_point_plus. rewrite nanoseconds_to_uint64, wrap_int64_plus.
    apply wrap_int64_small, Hsum.
  - split; [exact Hback|]. intros d1 d2 Heq.
    rewrite <- (Hback d1), <- (Hback d2), Heq. reflexivity.
Qed.

(** ** The comparator *)

Lemma compare_timer_false (ti1 ti2 : timer_info) :
  compare_timer ti1 ti2 = false <-> expiry_time ti1 <= expiry_time ti2.
Proof.
  unfold compare_timer. rewrite Z.gtb_ltb, Z.ltb_ge. reflexivity.
Qed.

Lemma compare_timer_true (ti1 ti2 : timer_info) :
  compare_timer ti1 ti2 = true <-> expiry_time ti2 < expiry_time ti1.
Proof.
  unfold compare_timer. rewrite Z.gtb_ltb, Z.ltb_lt. reflexivity.
Qed.

(** C10.  [compare_timer] is the reference comparison "the first expiry is
    strictly later than the second": it answers true exactly then, whatever
    the callbacks, contexts and parent timers of the two records are, and
    for equal expiries it answers false in both argument orders. *)
Theorem compare_timer_is_expires_later (ti1 ti2 : timer_info) :
  (compare_timer ti1 ti2 = true <-> expires_later ti1 ti2) /\
  (forall (cb1 cb2 : timer_callback_t) (ctx1 ctx2 parent1 parent2 : ptr),
     compare_timer (mk_timer_info (expiry_time ti1) cb1 ctx1 parent1)
                   (mk_timer_info (expiry_time ti2) cb2 ctx2 parent2)
     = compare_timer ti1 ti2) /\
  (expiry_time ti1 = expiry_time ti2 ->
   compare_timer ti1 ti2 = false /\ compare_timer ti2 ti1 = false).
Proof.
  split; [apply compare_timer_true|]. split; [reflexivity|].
  intros Heq. rewrite !compare_timer_false. lia.
Qed.

(** X3.  [compare_timer] is a strict weak ordering, as a heap asks of its
    comparison: it is irreflexive, asymmetric and transitive, and records
    that it ranks neither way stay so through a third. *)
Theorem compare_timer_strict_weak_order :
  (forall a : timer_info, compare_timer a a = false) /\
  (forall a b : timer_info, compare_timer a b = true -> compare_timer b a = false) /\
  (forall a b c : timer_info,
     compare_timer a b = true -> compare_timer b c = true -> compare_timer a c = true) /\
  (forall a b c : timer_info,
     compare_timer a b = false -> compare_timer b a = false ->
     compare_timer b c = false -> compare_timer c b = false ->
     compare_timer a c = false /\ compare_timer c a = false).
Proof.
  split; [intros a; apply compare_timer_false; lia|].
  split; [intros a b; rewrite compare_timer_true, compare_timer_false; lia|].
  split; [intros a b c; rewrite !compare_timer_true; lia|].
  intros a b c. rewrite !compare_timer_false. lia.
Qed.

(** X5.  On two records built by the constructor, with deadlines that fit
    the clock, [compare_timer] answers true exactly when the deadline of the
    first, the time of its call plus its delay, is later than the deadline
    of the second.  So for two timers built at the same instant it answers
    true exactly when the first has the longer delay, and for two timers
    with the same delay it answers false when the first was built no later
    than the second. *)
Theorem constructed_timers_rank_by_deadline (now1 now2 : time_point) (d1 d2 : uint64_t)
    (c1 c2 : ptr) (f1 f2 : timer_callback_t) (t1 t2 : ptr) :
  - 2 ^ 63 <= now1 -> now1 + u64_val d1 < 2 ^ 63 ->
  - 2 ^ 63 <= now2 -> now2 + u64_val d2 < 2 ^ 63 ->
  (compare_timer (timer_info_ctor now1 d1 c1 f1 t1) (timer_info_ctor now2 d2 c2 f2 t2) = true
   <-> now2 + u64_val d2 < now1 + u64_val d1) /\
  (now1 = now2 ->
   (compare_timer (timer_info_ctor now1 d1 c1 f1 t1) (timer_info_ctor now2 d2 c2 f2 t2) = true
    <-> u64_val d2 < u64_val d1)) /\
  (now1 <= now2 -> u64_val d1 = u64_val d2 ->
   compare_timer (timer_info_ctor now1 d1 c1 f1 t1) (timer_info_ctor now2 d2 c2 f2 t2) = false).
Proof.
  intros Hnow1 Hsum1 Hnow2 Hsum2.
  rewrite compare_timer_true, compare_timer_false.
  rewrite !timer_info_ctor_expiry by assumption.
  split; [reflexivity|]. split; [intros ->|]; lia.
Qed.

Lemma timer_info_ctor_expiry_long now nanos_after cookie timer_fn t :
  0 <= now < 2 ^ 63 -> 2 ^ 63 <= u64_val nanos_after ->
  expiry_time (timer_info_ctor now nanos_after cookie timer_fn t)
  = now + u64_val nanos_after - 2 ^ 64.
Proof.
  intros Hnow Hlong. pose proof (u64_bounds nanos_after) as Hd.
  cbn [timer_info_ctor expiry_time]. unfold time_point_plus, nanoseconds.
  rewrite (wrap_int64_wrapped (u64_val nanos_after)) by lia.
  rewrite wrap_int64_small by lia. lia.
Qed.

(** X6.  A delay of [2 ^ 63] nanoseconds or more turns the order round: at
    a time that is not negative [compare_timer] finds the record built with
    such a delay to expire before every record built at that time with a
    delay whose deadline fits the clock, however short that delay is. *)
Theorem long_delay_expires_first (now : time_point) (short long : uint64_t)
    (c1 c2 : ptr) (f1 f2 : timer_callback_t) (t1 t2 : ptr) :
  0 <= now -> now + u64_val short < 2 ^ 63 -> 2 ^ 63 <= u64_val long ->
  compare_timer (timer_info_ctor now short c1 f1 t1) (timer_info_ctor now long c2 f2 t2) = true /\
  compare_timer (timer_info_ctor now long c2 f2 t2) (timer_info_ctor now short c1 f1 t1) = false.
Proof.
  intros Hnow Hshort Hlong.
  pose proof (u64_bounds short) as Hs. pose proof (u64_bounds long) as Hl.
  rewrite compare_timer_true, compare_timer_false.
  rewrite (timer_info_ctor_expiry now short) by lia.
  rewrite (timer_info_ctor_expiry_long now long) by lia. lia.
Qed.

(** ** The binomial heap meets the interface *)
Module BinomialHeapLaws.
Import BinomialHeap.

Lemma tree_ind (P : tree -> Prop) :
  (forall n cs, Forall P cs -> P (Node n cs)) -> forall t, P t.
Proof.
  intros step. fix IH 1. intros [n cs]. apply step.
  induction cs as [|c cs IHcs]; constructor; [apply IH | exact IHcs].
Qed.

Lemma heap_ordered_Node n cs :
  heap_ordered (Node n cs) <->
  Forall (fun c => compare_timer n.2 (root c).2 = false /\ heap_ordered c) cs.
Proof.
  simpl. induction cs as [|c cs IHcs].
  - split; [constructor | trivial].
  - rewrite Forall_cons, <- IHcs. reflexivity.
Qed.

Lemma nodes_cons t trees : nodes (t :: trees) = tree_nodes t ++ nodes trees.
Proof. reflexivity. Qed.

Lemma nodes_app ts1 ts2 : nodes (ts1 ++ ts2) = nodes ts1 ++ nodes ts2.
Proof. apply flat_map_app. Qed.

Lemma tree_nodes_Node n cs : tree_nodes (Node n cs) = n :: nodes cs.
Proof. reflexivity. Qed.

Lemma tree_nodes_eta t : tree_nodes t = root t :: nodes (children t).
Proof. destruct t; reflexivity. Qed.

Lemma nodes_Permutation ts1 ts2 : ts1 ≡ₚ ts2 -> nodes ts1 ≡ₚ nodes ts2.
Proof. apply Permutation_flat_map. Qed.

Lemma elem_of_nodes n trees :
  n ∈ nodes trees <-> exists t, t ∈ trees /\ n ∈ tree_nodes t.
Proof.
  unfold nodes. rewrite list_elem_of_In, in_flat_map.
  split; intros (t & Ht & Hn); exists t; rewrite ?list_elem_of_In in *; auto.
Qed.

(** The root of a heap-ordered tree is ranked below none of its nodes. *)
Lemma heap_ordered_root t :
  heap_ordered t -> forall n, n ∈ tree_nodes t -> compare_timer (root t).2 n.2 = false.
Proof.
  induction t as [r cs IH] using tree_ind. intros Hord n Hn.
  rewrite heap_ordered_Node in Hord. rewrite tree_nodes_Node in Hn. simpl.
  apply elem_of_cons in Hn as [->|Hn].
  - apply compare_timer_false. lia.
  - apply elem_of_nodes in Hn as (c & Hc & Hn).
    rewrite Forall_forall in IH, Hord.
    destruct (Hord c Hc) as [Hrc Hoc].
    specialize (IH c Hc Hoc n Hn).
    rewrite compare_timer_false in *. lia.
Qed.

Lemma merge_trees_nodes t1 t2 :
  tree_nodes (merge_trees t1 t2) ≡ₚ tree_nodes t1 ++ tree_nodes t2.
Proof.
  unfold merge_trees. destruct (compare_timer _ _).
  - rewrite tree_nodes_Node, nodes_app, nodes_cons, (tree_nodes_eta t2). simpl.
    rewrite app_nil_r. rewrite (Permutation_app_comm (tree_nodes t1)). reflexivity.
  - rewrite tree_nodes_Node, nodes_app, nodes_cons, (tree_nodes_eta t1). simpl.
    rewrite app_nil_r. reflexivity.
Qed.

Lemma heap_ordered_children t : heap_ordered t -> Forall heap_ordered (children t).
Proof.
  destruct t as [n cs]. rewrite heap_ordered_Node. simpl.
  intros H. eapply Forall_impl; [exact H|]. intros c [_ Hc]. exact Hc.
Qed.

Lemma heap_ordered_eta t :
  heap_ordered t <->
  Forall (fun c => compare_timer (root t).2 (root c).2 = false /\ heap_ordered c) (children t).
Proof. destruct t as [n cs]. apply heap_ordered_Node. Qed.

Lemma merge_trees_ordered t1 t2 :
  heap_ordered t1 -> heap_ordered t2 -> heap_ordered (merge_trees t1 t2).
Proof.
  intros H1 H2. unfold merge_trees.
  destruct (compare_timer _ _) eqn:Hcmp; rewrite heap_ordered_Node, Forall_app.
  - split; [apply heap_ordered_eta, H2|].
    constructor; [|constructor]. split; [|exact H1].
    apply compare_timer_true in Hcmp. apply compare_timer_false. lia.
  - split; [apply heap_ordered_eta, H1|].
    constructor; [|constructor]. split; [exact Hcmp | exact H2].
Qed.

Lemma insert_node_nodes t trees :
  nodes (insert_node t trees) ≡ₚ tree_nodes t ++ nodes trees.
Proof.
  revert t. induction trees as [|t' rest IH]; intros t; cbn [insert_node].
  - rewrite nodes_cons. reflexivity.
  - destruct (_ <? _)%nat; [reflexivity|].
    destruct (_ =? _)%nat.
    + rewrite IH, merge_trees_nodes, !nodes_cons, app_assoc. reflexivity.
    + rewrite !nodes_cons, IH, !app_assoc.
      rewrite (Permutation_app_comm (tree_nodes t')). reflexivity.
Qed.

Lemma insert_node_ordered t trees :
  heap_ordered t -> Forall heap_ordered trees -> Forall heap_ordered (insert_node t trees).
Proof.
  revert t. induction trees as [|t' rest IH]; intros t Ht Htrees; simpl.
  - constructor; [exact Ht | constructor].
  - apply Forall_cons in Htrees as [Ht' Hrest].
    destruct (_ <? _)%nat; [repeat constructor; assumption|].
    destruct (_ =? _)%nat.
    + apply IH; [apply merge_trees_ordered; assumption | exact Hrest].
    + constructor; [exact Ht' | apply IH; assumption].
Qed.

Lemma merge_nodes_nodes cs trees :
  nodes (merge_nodes cs trees) ≡ₚ nodes cs ++ nodes trees.
Proof.
  unfold merge_nodes. revert trees. induction cs as [|c cs IH]; intros trees; cbn [foldl].
  - reflexivity.
  - rewrite IH, insert_node_nodes, nodes_cons, !app_assoc.
    rewrite (Permutation_app_comm (nodes cs)). reflexivity.
Qed.

Lemma merge_nodes_ordered cs trees :
  Forall heap_ordered cs -> Forall heap_ordered trees ->
  Forall heap_ordered (merge_nodes cs trees).
Proof.
  unfold merge_nodes. revert trees. induction cs as [|c cs IH]; intros trees Hcs Htrees; simpl.
  - exact Htrees.
  - apply Forall_cons in Hcs as [Hc Hcs].
    apply IH; [exact Hcs | apply insert_node_ordered; assumption].
Qed.

Lemma top_split_None trees : top_split trees = None <-> trees = [].
Proof.
  destruct trees as [|t rest]; simpl; [tauto|].
  split; [|discriminate].
  destruct (top_split rest) as [[m others]|]; [|discriminate].
  destruct (compare_timer _ _); discriminate.
Qed.

Lemma top_split_Some trees t others :
  top_split trees = Some (t, others) ->
  trees ≡ₚ t :: others /\
  forall t', t' ∈ trees -> compare_timer (root t).2 (root t').2 = false.
Proof.
  revert t others. induction trees as [|t0 rest IH]; intros t others; simpl; [discriminate|].
  destruct (top_split rest) as [[m others']|] eqn:Hrest.
  - destruct (IH m others' eq_refl) as [Hperm Hmin].
    destruct (compare_timer _ _) eqn:Hcmp; intros [= <- <-].
    + split; [rewrite Hperm; apply Permutation_swap|].
      intros t' [->|Ht']%elem_of_cons; [|auto].
      apply compare_timer_true in Hcmp. apply compare_timer_false. lia.
    + split; [reflexivity|].
      intros t' [->|Ht']%elem_of_cons.
      * apply compare_timer_false. lia.
      * specialize (Hmin t' Ht'). rewrite compare_timer_false in *. lia.
  - apply top_split_None in Hrest as ->. intros [= <- <-].
    split; [reflexivity|].
    intros t' [->|Ht']%elem_of_cons; [apply compare_timer_false; lia|].
    apply elem_of_nil in Ht' as [].
Qed.

Lemma sift_children_None sift n cs :
  sift_children sift n cs = None <-> Forall (fun c => sift c = None) cs.
Proof.
  induction cs as [|c cs IH]; cbn [sift_children].
  - split; [constructor | reflexivity].
  - rewrite Forall_cons, <- IH. fold (sift_children sift n).
    destruct (sift c); [split; [discriminate | intros [[=] _]]|].
    destruct (sift_children sift n cs); simpl; [split; [discriminate | intros [_ [=]]]|].
    tauto.
Qed.

Lemma sift_up_None k t : sift_up k t = None <-> k ∉ (tree_nodes t).*1.
Proof.
  induction t as [n cs IH] using tree_ind. cbn [sift_up].
  rewrite tree_nodes_Node, fmap_cons, not_elem_of_cons.
  destruct (bool_decide_reflect (n.1 = k)) as [Heq|Hne].
  - split; [discriminate | intros [Hk _]; congruence].
  - rewrite fmap_None, sift_children_None.
    assert (Forall (fun c => sift_up k c = None) cs <-> k ∉ (nodes cs).*1) as ->; [|intuition congruence].
    induction cs as [|c cs IHcs].
    + split; [intros _; apply not_elem_of_nil | constructor].
    + apply Forall_cons in IH as [IHc IH].
      rewrite Forall_cons, nodes_cons, fmap_app, not_elem_of_app, IHc, (IHcs IH).
      reflexivity.
Qed.

Lemma sift_children_Some k n cs m cs' :
  Forall (fun c => forall c', sift_up k c = Some c' ->
            tree_nodes c' ≡ₚ tree_nodes c /\ (root c').1 = k /\
            (heap_ordered c -> Forall heap_ordered (children c'))) cs ->
  sift_children (sift_up k) n cs = Some (m, cs') ->
  m :: nodes cs' ≡ₚ n :: nodes cs /\ m.1 = k /\
  (heap_ordered (Node n cs) -> Forall heap_ordered cs').
Proof.
  intros IH. revert m cs'. induction cs as [|c cs IHcs]; intros m cs'; cbn [sift_children];
    [discriminate|].
  fold (sift_children (sift_up k) n).
  apply Forall_cons in IH as [IHc IH].
  destruct (sift_up k c) as [c'|] eqn:Hc.
  - intros [= <- <-]. destruct (IHc c' eq_refl) as (Hperm & Hk & Hord).
    split; [|split; [exact Hk|]].
    + rewrite !nodes_cons, tree_nodes_Node, <- Hperm, (tree_nodes_eta c'). simpl.
      apply Permutation_swap.
    + rewrite heap_ordered_Node, Forall_cons. intros [[Hnc Hoc] Hcs].
      constructor; [|eapply Forall_impl; [exact Hcs | intros ? [_ ?]; assumption]].
      apply heap_ordered_Node, Forall_forall. intros g Hg. split.
      * assert (root g ∈ tree_nodes c) as Hin.
        { rewrite <- Hperm, (tree_nodes_eta c'). apply elem_of_cons. right.
          apply elem_of_nodes. exists g. split; [exact Hg|].
          rewrite (tree_nodes_eta g). apply elem_of_cons. left. reflexivity. }
        pose proof (heap_ordered_root c Hoc _ Hin) as Hle.
        rewrite compare_timer_false in *. lia.
      * specialize (Hord Hoc). rewrite Forall_forall in Hord. auto.
  - destruct (sift_children (sift_up k) n cs) as [[m0 cs0]|] eqn:Hcs; [|discriminate].
    intros [= <- <-]. destruct (IHcs IH m0 cs0 eq_refl) as (Hperm & Hk & Hord).
    split; [|split; [exact Hk|]].
    + cbn [fst snd]. rewrite !nodes_cons.
      rewrite (Permutation_middle (tree_nodes c) (nodes cs0) m0), Hperm.
      symmetry. apply Permutation_middle.
    + rewrite heap_ordered_Node, Forall_cons. intros [[Hnc Hoc] Hrest]. simpl.
      constructor; [exact Hoc|]. apply Hord, heap_ordered_Node, Hrest.
Qed.

Lemma sift_up_Some k t t' :
  sift_up k t = Some t' ->
  tree_nodes t' ≡ₚ tree_nodes t /\ (root t').1 = k /\
  (heap_ordered t -> Forall heap_ordered (children t')).
Proof.
  revert t'. induction t as [n cs IH] using tree_ind. intros t'. cbn [sift_up].
  destruct (bool_decide_reflect (n.1 = k)) as [Heq|Hne].
  - intros [= <-]. split; [reflexivity|]. split; [exact Heq|]. apply heap_ordered_children.
  - destruct (sift_children (sift_up k) n cs) as [[m cs']|] eqn:Hcs; [|discriminate].
    intros [= <-].
    exact (sift_children_Some k n cs m cs' IH Hcs).
Qed.

Lemma extract_None k trees : extract k trees = None <-> k ∉ (nodes trees).*1.
Proof.
  induction trees as [|t rest IH]; cbn [extract].
  - split; [intros _; apply not_elem_of_nil | reflexivity].
  - rewrite nodes_cons, fmap_app, not_elem_of_app, <- IH, <- sift_up_None.
    destruct (sift_up k t); [split; [discriminate | intros [[=] _]]|].
    rewrite fmap_None. tauto.
Qed.

Lemma extract_Some k trees t others :
  extract k trees = Some (t, others) ->
  nodes trees ≡ₚ tree_nodes t ++ nodes others /\ (root t).1 = k /\
  (Forall heap_ordered trees ->
   Forall heap_ordered (children t) /\ Forall heap_ordered others).
Proof.
  revert t others. induction trees as [|t0 rest IH]; intros t others; cbn [extract];
    [discriminate|].
  destruct (sift_up k t0) as [t0'|] eqn:Hsift.
  - intros [= <- <-]. destruct (sift_up_Some k t0 t0' Hsift) as (Hperm & Hk & Hord).
    split; [rewrite nodes_cons, Hperm; reflexivity|]. split; [exact Hk|].
    intros [H0 Hrest]%Forall_cons. auto.
  - destruct (extract k rest) as [[t1 others1]|] eqn:Hrest; [|discriminate].
    intros [= <- <-]. destruct (IH t1 others1 eq_refl) as (Hperm & Hk & Hord).
    split; [|split; [exact Hk|]].
    + cbn [fst snd]. rewrite !nodes_cons, Hperm, !app_assoc.
      rewrite (Permutation_app_comm (tree_nodes t0)). reflexivity.
    + intros [H0 Hr]%Forall_cons. destruct (Hord Hr). simpl. auto.
Qed.

Lemma filter_handle_fresh k (l : list heap_node) :
  k ∉ l.*1 -> filter (fun n : heap_node => n.1 <> k) l = l.
Proof.
  intros Hk. apply filter_keeps_all, Forall_forall. intros n Hn Heq. apply Hk.
  apply list_elem_of_fmap. exists n. auto.
Qed.

Lemma wf_empty : wf [].
Proof. split; constructor. Qed.

Lemma emplace_nodes n trees : nodes (emplace n trees) ≡ₚ n :: nodes trees.
Proof. unfold emplace. rewrite insert_node_nodes. reflexivity. Qed.

Lemma emplace_wf k v trees :
  wf trees -> k ∉ (nodes trees).*1 -> wf (emplace (k, v) trees).
Proof.
  intros [Hord Hnd] Hk. split.
  - apply insert_node_ordered; [exact I | exact Hord].
  - rewrite emplace_nodes, fmap_cons. constructor; assumption.
Qed.

Lemma top_None trees : top trees = None -> nodes trees = [].
Proof.
  unfold top. rewrite fmap_None. intros ->%top_split_None. reflexivity.
Qed.

Lemma top_Some trees n :
  wf trees -> top trees = Some n ->
  n ∈ nodes trees /\ forall n', n' ∈ nodes trees -> compare_timer n.2 n'.2 = false.
Proof.
  intros [Hord _]. unfold top. rewrite fmap_Some. intros ([t others] & Hsplit & ->).
  destruct (top_split_Some _ _ _ Hsplit) as [Hperm Hmin]. cbn [fst].
  assert (t ∈ trees) as Ht by (rewrite Hperm; apply elem_of_cons; auto).
  split.
  - apply elem_of_nodes. exists t. split; [exact Ht|].
    rewrite tree_nodes_eta. apply elem_of_cons. auto.
  - intros n' (t' & Ht' & Hn')%elem_of_nodes.
    rewrite Forall_forall in Hord.
    pose proof (heap_ordered_root t' (Hord t' Ht') n' Hn').
    specialize (Hmin t' Ht'). rewrite compare_timer_false in *. lia.
Qed.

Lemma pop_nodes trees n :
  top trees = Some n -> nodes trees ≡ₚ n :: nodes (pop trees).
Proof.
  unfold top, pop. rewrite fmap_Some. intros ([t others] & Hsplit & ->).
  rewrite Hsplit. destruct (top_split_Some _ _ _ Hsplit) as [Hperm _]. cbn [fst].
  rewrite merge_nodes_nodes, (nodes_Permutation _ _ Hperm), nodes_cons, tree_nodes_eta.
  reflexivity.
Qed.

Lemma pop_wf trees n : wf trees -> top trees = Some n -> wf (pop trees).
Proof.
  intros [Hord Hnd] Htop. split.
  - revert Htop. unfold top, pop. rewrite fmap_Some. intros ([t others] & Hsplit & _).
    rewrite Hsplit. destruct (top_split_Some _ _ _ Hsplit) as [Hperm _].
    rewrite Hperm in Hord. apply Forall_cons in Hord as [Ht Hothers].
    apply merge_nodes_ordered; [apply heap_ordered_children, Ht | exact Hothers].
  - rewrite (pop_nodes trees n Htop), fmap_cons in Hnd.
    apply NoDup_cons in Hnd as [_ Hnd]. exact Hnd.
Qed.

Lemma erase_absent k trees : k ∉ (nodes trees).*1 -> erase k trees = trees.
Proof. intros Hk%extract_None. unfold erase. rewrite Hk. reflexivity. Qed.

Lemma erase_present k trees t others :
  extract k trees = Some (t, others) ->
  nodes trees ≡ₚ root t :: nodes (erase k trees) /\ (root t).1 = k.
Proof.
  intros Hex. unfold erase. rewrite Hex.
  destruct (extract_Some _ _ _ _ Hex) as (Hperm & Hk & _). split; [|exact Hk].
  rewrite merge_nodes_nodes, Hperm, tree_nodes_eta. reflexivity.
Qed.

Lemma erase_nodes k trees :
  wf trees ->
  nodes (erase k trees) ≡ₚ filter (fun n : heap_node => n.1 <> k) (nodes trees).
Proof.
  intros [_ Hnd]. destruct (extract k trees) as [[t others]|] eqn:Hex.
  - destruct (erase_present _ _ _ _ Hex) as [Hperm Hk].
    rewrite Hperm, fmap_cons, Hk in Hnd. apply NoDup_cons in Hnd as [Hfresh _].
    rewrite Hperm at 1. rewrite filter_cons_False by (intros Hne; apply Hne, Hk).
    rewrite filter_handle_fresh by exact Hfresh. reflexivity.
  - apply extract_None in Hex. rewrite erase_absent, filter_handle_fresh by exact Hex.
    reflexivity.
Qed.

Lemma erase_wf k trees : wf trees -> wf (erase k trees).
Proof.
  intros [Hord Hnd]. destruct (extract k trees) as [[t others]|] eqn:Hex.
  - split.
    + unfold erase. rewrite Hex. destruct (extract_Some _ _ _ _ Hex) as (_ & _ & Hsub).
      destruct (Hsub Hord). apply merge_nodes_ordered; assumption.
    + destruct (erase_present _ _ _ _ Hex) as [Hperm _].
      rewrite Hperm, fmap_cons in Hnd. apply NoDup_cons in Hnd as [_ Hnd]. exact Hnd.
  - apply extract_None in Hex. rewrite erase_absent by exact Hex. split; assumption.
Qed.
End BinomialHeapLaws.

#[export] Instance binomial_heap : TimerHeap := {|
  timer_heap_t := list BinomialHeap.tree;
  heap_empty := [];
  heap_emplace := BinomialHeap.emplace;
  heap_top := BinomialHeap.top;
  heap_pop := BinomialHeap.pop;
  heap_erase := BinomialHeap.erase;
  heap_nodes := BinomialHeap.nodes;
  heap_wf := BinomialHeap.wf;
  heap_empty_wf := BinomialHeapLaws.wf_empty;
  heap_empty_nodes := eq_refl;
  heap_wf_NoDup := fun h Hwf => proj2 Hwf;
  heap_emplace_wf := BinomialHeapLaws.emplace_wf;
  heap_emplace_nodes := fun k v h _ _ => BinomialHeapLaws.emplace_nodes (k, v) h;
  heap_top_None := fun h _ => BinomialHeapLaws.top_None h;
  heap_top_Some := BinomialHeapLaws.top_Some;
  heap_pop_wf := BinomialHeapLaws.pop_wf;
  heap_pop_nodes := fun h n _ => BinomialHeapLaws.pop_nodes h n;
  heap_erase_wf := BinomialHeapLaws.erase_wf;
  heap_erase_nodes := BinomialHeapLaws.erase_nodes;
  heap_erase_absent := BinomialHeapLaws.erase_absent
|}.

(** ** The queue operations, for any queue that meets the interface *)
Section QueueFacts.
Context {TH : TimerHeap}.

Lemma heap_top_min (q : timer_heap_t) (n n' : heap_node) :
  heap_wf q -> heap_top q = Some n -> n' ∈ heap_nodes q ->
  expiry_time n.2 <= expiry_time n'.2.
Proof.
  intros Hwf Htop Hin. apply compare_timer_false.
  exact (proj2 (heap_top_Some q n Hwf Htop) n' Hin).
Qed.

Lemma heap_top_is_Some (q : timer_heap_t) (n : heap_node) :
  heap_wf q -> n ∈ heap_nodes q -> exists m, heap_top q = Some m.
Proof.
  intros Hwf Hin. destruct (heap_top q) as [m|] eqn:Htop; [eauto|].
  rewrite (heap_top_None q Hwf Htop) in Hin. apply elem_of_nil in Hin as [].
Qed.

Lemma heap_top_empty : heap_top heap_empty = None.
Proof.
  destruct (heap_top heap_empty) as [n|] eqn:Htop; [|reflexivity].
  destruct (heap_top_Some _ _ heap_empty_wf Htop) as [Hin _].
  rewrite heap_empty_nodes in Hin. apply elem_of_nil in Hin as [].
Qed.



Lemma pop_due_spec (fuel : nat) (now : time_point) (q : timer_heap_t) :
  heap_wf q -> (length (heap_nodes q) <= fuel)%nat ->
  heap_wf (pop_due fuel now q).2 /\
  heap_nodes q ≡ₚ (pop_due fuel now q).1 ++ heap_nodes (pop_due fuel now q).2 /\
  Forall (fun n : heap_node => expiry_time n.2 <= now) (pop_due fuel now q).1 /\
  Forall (fun n : heap_node => now < expiry_time n.2) (heap_nodes (pop_due fuel now q).2) /\
  StronglySorted expiry_le (pop_due fuel now q).1.
Proof.
  revert q. induction fuel as [|fuel IH]; intros q Hwf Hlen; cbn [pop_due].
  - assert (heap_nodes q = []) as Hnil by (apply length_zero_iff_nil; lia).
    cbn [fst snd]. rewrite Hnil.
    split; [exact Hwf|]. split; [reflexivity|]. repeat split; constructor.
  - destruct (heap_top q) as [n|] eqn:Htop.
    + destruct (Z.leb_spec (expiry_time n.2) now) as [Hdue|Hlate].
      * pose proof (heap_pop_nodes q n Hwf Htop) as Hperm.
        pose proof (heap_pop_wf q n Hwf Htop) as Hwf'.
        assert (length (heap_nodes (heap_pop q)) <= fuel)%nat as Hlen'.
        { apply Permutation_length in Hperm. simpl in Hperm. lia. }
        destruct (IH (heap_pop q) Hwf' Hlen') as (IHwf & IHperm & IHdue & IHrest & IHsorted).
        destruct (pop_due fuel now (heap_pop q)) as [due q'] eqn:Hrec. cbn [fst snd] in *.
        repeat split; try assumption.
        -- rewrite Hperm, IHperm. reflexivity.
        -- constructor; assumption.
        -- constructor; [exact IHsorted|].
           apply Forall_forall. intros n' Hn'. unfold expiry_le.
           apply (heap_top_min q n n' Hwf Htop).
           rewrite Hperm, IHperm. apply elem_of_cons. right.
           apply elem_of_app. left. exact Hn'.
      * cbn [fst snd].
        split; [exact Hwf|]. split; [reflexivity|]. split; [constructor|].
        split; [|constructor].
        apply Forall_forall. intros n' Hn'.
        pose proof (heap_top_min q n n' Hwf Htop Hn'). lia.
    + cbn [fst snd]. rewrite (heap_top_None q Hwf Htop).
      split; [exact Hwf|]. split; [reflexivity|]. repeat split; constructor.
Qed.

Lemma pop_all_due_spec (now : time_point) (q : timer_heap_t) :
  heap_wf q ->
  heap_wf (pop_all_due now q).2 /\
  heap_nodes q ≡ₚ (pop_all_due now q).1 ++ heap_nodes (pop_all_due now q).2 /\
  Forall (fun n : heap_node => expiry_time n.2 <= now) (pop_all_due now q).1 /\
  Forall (fun n : heap_node => now < expiry_time n.2) (heap_nodes (pop_all_due now q).2) /\
  StronglySorted expiry_le (pop_all_due now q).1.
Proof. intros Hwf. apply pop_due_spec; [exact Hwf | reflexivity]. Qed.

Lemma pop_all_due_partition (now : time_point) (q : timer_heap_t) :
  heap_wf q ->
  (pop_all_due now q).1 ≡ₚ filter (fun n : heap_node => expiry_time n.2 <= now) (heap_nodes q) /\
  heap_nodes (pop_all_due now q).2
    ≡ₚ filter (fun n : heap_node => ~ expiry_time n.2 <= now) (heap_nodes q).
Proof.
  intros Hwf. destruct (pop_all_due_spec now q Hwf) as (_ & Hperm & Hdue & Hrest & _).
  destruct (pop_all_due now q) as [due rest]. cbn [fst snd] in *.
  rewrite Hperm, !filter_app. split.
  - rewrite (filter_keeps_all _ _ Hdue).
    rewrite filter_keeps_none; [rewrite app_nil_r; reflexivity|].
    eapply Forall_impl; [exact Hrest|]. cbn. intros n Hn. lia.
  - rewrite (filter_keeps_none _ due).
    + rewrite filter_keeps_all; [reflexivity|].
      eapply Forall_impl; [exact Hrest|]. cbn. intros n Hn. lia.
    + eapply Forall_impl; [exact Hdue|]. cbn. intros n Hn. lia.
Qed.

Lemma strictly_sorted_of_distinct (l : list heap_node) :
  StronglySorted expiry_le l ->
  NoDup ((fun n : heap_node => expiry_time n.2) <$> l) ->
  StronglySorted expiry_lt l.
Proof.
  induction 1 as [|x l Hsorted IH Hall]; intros Hnd; [constructor|].
  rewrite fmap_cons in Hnd. apply NoDup_cons in Hnd as [Hx Hnd].
  constructor; [exact (IH Hnd)|].
  apply Forall_forall. intros y Hy. rewrite Forall_forall in Hall.
  specialize (Hall y Hy). unfold expiry_le, expiry_lt in *.
  assert (expiry_time x.2 <> expiry_time y.2); [|lia].
  intros Heq. apply Hx. rewrite Heq.
  apply list_elem_of_fmap. exists y. auto.
Qed.

Lemma insert_all_from (q : timer_heap_t) (es : list heap_node) :
  heap_wf q -> NoDup (es.*1 ++ (heap_nodes q).*1) ->
  heap_wf (foldl (fun acc e => heap_emplace e acc) q es) /\
  heap_nodes (foldl (fun acc e => heap_emplace e acc) q es) ≡ₚ es ++ heap_nodes q.
Proof.
  revert q. induction es as [|[k v] es IH]; intros q Hwf Hnd; cbn [foldl].
  - split; [exact Hwf | reflexivity].
  - rewrite fmap_cons in Hnd. cbn [fst app] in Hnd.
    apply NoDup_cons in Hnd as [Hk Hnd].
    assert (k ∉ (heap_nodes q).*1) as Hfresh.
    { intros Hin. apply Hk, elem_of_app. right. exact Hin. }
    pose proof (heap_emplace_wf k v q Hwf Hfresh) as Hwf1.
    pose proof (heap_emplace_nodes k v q Hwf Hfresh) as Hperm1.
    destruct (IH (heap_emplace (k, v) q) Hwf1) as [Hwf2 Hperm2].
    { rewrite Hperm1, fmap_cons. cbn [fst].
      rewrite <- Permutation_middle. constructor; assumption. }
    split; [exact Hwf2|].
    rewrite Hperm2, Hperm1. symmetry. apply Permutation_middle.
Qed.

Lemma insert_all_spec (es : list heap_node) :
  NoDup es.*1 -> heap_wf (insert_all es) /\ heap_nodes (insert_all es) ≡ₚ es.
Proof.
  intros Hnd. unfold insert_all.
  destruct (insert_all_from heap_empty es heap_empty_wf) as [Hwf Hperm].
  - rewrite heap_empty_nodes. cbn. rewrite app_nil_r. exact Hnd.
  - split; [exact Hwf|]. rewrite Hperm, heap_empty_nodes, app_nil_r. reflexivity.
Qed.

(** C2.  [pop_all_due now] returns exactly the entries whose expiry is not
    after [now] and leaves exactly the others in the queue, and the batch
    comes out in ascending expiry order.  In particular entries with
    distinct deadlines, inserted in any order and popped at a time not
    before the latest deadline, come out all of them, in strictly ascending
    deadline order, and the queue is left empty. *)
Theorem pop_all_due_exact_ascending :
  (forall (now : time_point) (q : timer_heap_t),
     heap_wf q ->
     (pop_all_due now q).1
       ≡ₚ filter (fun n : heap_node => expiry_time n.2 <= now) (heap_nodes q) /\
     heap_nodes (pop_all_due now q).2
       ≡ₚ filter (fun n : heap_node => ~ expiry_time n.2 <= now) (heap_nodes q) /\
     StronglySorted expiry_le (pop_all_due now q).1) /\
  (forall (now : time_point) (es : list heap_node),
     NoDup es.*1 ->
     NoDup ((fun n : heap_node => expiry_time n.2) <$> es) ->
     Forall (fun n : heap_node => expiry_time n.2 <= now) es ->
     (pop_all_due now (insert_all es)).1 ≡ₚ es /\
     length (pop_all_due now (insert_all es)).1 = length es /\
     StronglySorted expiry_lt (pop_all_due now (insert_all es)).1 /\
     heap_nodes (pop_all_due now (insert_all es)).2 = []).
Proof.
  split.
  - intros now q Hwf. destruct (pop_all_due_partition now q Hwf) as [Hdue Hrest].
    split; [exact Hdue|]. split; [exact Hrest|].
    apply (pop_all_due_spec now q Hwf).
  - intros now es Hkeys Hdistinct Hall.
    destruct (insert_all_spec es Hkeys) as [Hwf Hperm].
    destruct (pop_all_due_partition now _ Hwf) as [Hdue Hrest].
    destruct (pop_all_due_spec now _ Hwf) as (_ & _ & _ & _ & Hsorted).
    rewrite Hperm in Hdue, Hrest.
    rewrite (filter_keeps_all _ _ Hall) in Hdue.
    rewrite filter_keeps_none in Hrest
      by (eapply Forall_impl; [exact Hall|]; cbn; intros n Hn; lia).
    split; [exact Hdue|]. split; [rewrite Hdue; reflexivity|].
    split; [|apply Permutation_nil_r, Hrest].
    apply strictly_sorted_of_distinct; [exact Hsorted|].
    rewrite Hdue. exact Hdistinct.
Qed.

End QueueFacts.

(** ** The scheduler, for any queue that meets the interface *)

Lemma submseteq_Forall {A} (P : A -> Prop) (l k : list A) :
  l ⊆+ k -> Forall P k -> Forall P l.
Proof. intros (k' & Hk)%submseteq_Permutation. rewrite Hk, Forall_app. tauto. Qed.

Lemma submseteq_NoDup {A} (l k : list A) : l ⊆+ k -> NoDup k -> NoDup l.
Proof. intros (k' & Hk)%submseteq_Permutation. rewrite Hk, NoDup_app. tauto. Qed.

Section SchedulerFacts.
Context {TH : TimerHeap}.

Lemma run_app (s : timer_epoll) (rs1 rs2 : list request) :
  run s (rs1 ++ rs2)
  = ((run (run s rs1).1 rs2).1, (run s rs1).2 ++ (run (run s rs1).1 rs2).2).
Proof.
  revert s. induction rs1 as [|r rs1 IH]; intros s; cbn [run app fst snd].
  - destruct (run s rs2); reflexivity.
  - destruct (step s r) as [s1 c1]. rewrite IH.
    destruct (run s1 rs1) as [s2 c2]. cbn [fst snd].
    destruct (run s2 rs2) as [s3 c3]. cbn [fst snd]. rewrite app_assoc. reflexivity.
Qed.

(** *** What every run keeps true *)

Lemma next_node_fresh (s : timer_epoll) :
  state_ok s -> next_node s ∉ (entries s).*1.
Proof.
  intros (_ & Hlt & _) (n & Hk & Hn)%list_elem_of_fmap.
  rewrite Forall_forall in Hlt. specialize (Hlt n Hn). lia.
Qed.

Lemma next_node_not_queued (s : timer_epoll) :
  state_ok s -> next_node s ∉ (heap_nodes (m_timer_list (base s))).*1.
Proof.
  intros Hok Hin. apply (next_node_fresh s Hok).
  unfold entries. rewrite fmap_app. apply elem_of_app. auto.
Qed.

Lemma state_ok_init (self : ptr) (is_per_thread : bool) :
  state_ok (timer_epoll_ctor self is_per_thread).
Proof.
  unfold state_ok, entries. cbn. rewrite heap_empty_nodes.
  split; [apply heap_empty_wf|]. split; [constructor|]. split; [constructor | reflexivity].
Qed.

(** A state whose entries are among those of a state that is in order is
    in order. *)
Lemma state_ok_sub (s s' : timer_epoll) :
  state_ok s ->
  heap_wf (m_timer_list (base s')) ->
  entries s' ⊆+ entries s ->
  (next_node s <= next_node s')%nat ->
  (m_common_timer_io_dev s' = None -> heap_nodes (m_timer_list (base s')) = []) ->
  state_ok s'.
Proof.
  intros (_ & Hlt & Hnd & _) Hwf Hsub Hnext Hdev.
  split; [exact Hwf|]. split; [|split; [|exact Hdev]].
  - eapply Forall_impl; [exact (submseteq_Forall _ _ _ Hsub Hlt)|]. cbn. intros n Hn. lia.
  - apply (submseteq_NoDup _ (entries s).*1); [|exact Hnd]. apply fmap_submseteq, Hsub.
Qed.

Lemma schedule_oneshot_None s now nanos_after cookie timer_fn os_ok :
  oneshot_dev s os_ok = None ->
  schedule_oneshot s now nanos_after cookie timer_fn os_ok = (s, inl E_NO_DESCRIPTOR).
Proof. unfold schedule_oneshot. intros ->. reflexivity. Qed.

Lemma schedule_oneshot_Some s now nanos_after cookie timer_fn os_ok io :
  oneshot_dev s os_ok = Some io ->
  schedule_oneshot s now nanos_after cookie timer_fn os_ok =
  (let ti := timer_info_ctor now nanos_after cookie timer_fn (this s) in
   let q := heap_emplace (next_node s, ti) (m_timer_list (base s)) in
   {| base := {| m_timer_list := q;
                 m_is_thread_local := m_is_thread_local (base s);
                 m_stopped := m_stopped (base s) |};
      m_common_timer_io_dev :=
        Some (if is_new_minimum (next_node s) q then arm io (Some (expiry_time ti)) else io);
      m_recurring_timer_iodevs := m_recurring_timer_iodevs s;
      this := this s; next_node := S (next_node s); next_iodev := next_iodev s;
      in_flight := in_flight s |},
   inr (heap_handle (next_node s))).
Proof. unfold schedule_oneshot. intros ->. reflexivity. Qed.

Lemma schedule_oneshot_state_ok s now nanos_after cookie timer_fn os_ok :
  state_ok s -> state_ok (schedule_oneshot s now nanos_after cookie timer_fn os_ok).1.
Proof.
  intros Hok. destruct (oneshot_dev s os_ok) as [io|] eqn:Hdev;
    [|rewrite schedule_oneshot_None by exact Hdev; exact Hok].
  rewrite (schedule_oneshot_Some _ _ _ _ _ _ io Hdev). cbn zeta. cbn [fst].
  pose proof (next_node_fresh s Hok) as Hfresh.
  pose proof (next_node_not_queued s Hok) as Hfreshq.
  destruct Hok as (Hwf & Hlt & Hnd & _).
  unfold state_ok, entries in *. cbn [base m_timer_list in_flight next_node m_common_timer_io_dev].
  split; [apply heap_emplace_wf; assumption|].
  split; [|split; [|discriminate]].
  - rewrite heap_emplace_nodes by assumption. cbn [app].
    constructor; [cbn; lia|]. eapply Forall_impl; [exact Hlt|]. cbn. intros n Hn. lia.
  - rewrite heap_emplace_nodes by assumption. cbn [app].
    rewrite fmap_cons. constructor; assumption.
Qed.

Lemma schedule_recurring_queue s now nanos_after cookie timer_fn os_ok :
  let s' := (schedule_recurring s now nanos_after cookie timer_fn os_ok).1 in
  base s' = base s /\ next_node s' = next_node s /\
  m_common_timer_io_dev s' = m_common_timer_io_dev s /\ in_flight s' = in_flight s.
Proof.
  unfold schedule_recurring. destruct (setup_timer_fd s os_ok); cbn; auto.
Qed.

(** A state with the queue, the batch, the node counter and the shared
    descriptor of a state that is in order is in order. *)
Lemma state_ok_ext (s s' : timer_epoll) :
  base s' = base s -> next_node s' = next_node s ->
  m_common_timer_io_dev s' = m_common_timer_io_dev s -> in_flight s' = in_flight s ->
  state_ok s -> state_ok s'.
Proof.
  unfold state_ok, entries. intros -> -> -> ->. trivial.
Qed.

Lemma schedule_state_ok s now nanos_after recurring cookie timer_fn os_ok :
  state_ok s -> state_ok (schedule s now nanos_after recurring cookie timer_fn os_ok).1.
Proof.
  intros Hok. unfold schedule.
  destruct (m_stopped (base s)); [exact Hok|].
  destruct (delay_is_negative nanos_after); [exact Hok|].
  destruct timer_fn as [f|]; [|exact Hok].
  destruct recurring; [|apply schedule_oneshot_state_ok, Hok].
  destruct (schedule_recurring_queue s now nanos_after cookie (Some f) os_ok)
    as (Hb & Hn & Hc & Hf).
  exact (state_ok_ext _ _ Hb Hn Hc Hf Hok).
Qed.

Lemma erase_nodes_sub (k : handle_type) (q : timer_heap_t) :
  heap_wf q -> heap_nodes (heap_erase k q) ⊆+ heap_nodes q.
Proof.
  intros Hwf. rewrite heap_erase_nodes by exact Hwf.
  apply sublist_submseteq, sublist_filter.
Qed.

Lemma cancel_state_ok s thandle : state_ok s -> state_ok (cancel s thandle).
Proof.
  intros Hok. destruct thandle as [k|[d|]]; cbn [cancel];
    [|exact (state_ok_ext s _ eq_refl eq_refl eq_refl eq_refl Hok) | exact Hok].
  pose proof Hok as (Hwf & _ & _ & Hdev).
  apply (state_ok_sub s); [exact Hok | apply heap_erase_wf, Hwf | | reflexivity |].
  - unfold entries. cbn. apply submseteq_skips_r, erase_nodes_sub, Hwf.
  - cbn. intros Hnone. specialize (Hdev Hnone).
    rewrite heap_erase_absent by (rewrite Hdev; apply not_elem_of_nil). exact Hdev.
Qed.

(** Cancelling a list of devices touches the recurring set only. *)
Lemma cancel_devices s (ds : list nat) :
  foldr (fun d acc => cancel acc (iodev_handle (Some d))) s ds =
  set_recurring s (foldr delete (m_recurring_timer_iodevs s) ds).
Proof.
  induction ds as [|d ds IH]; cbn [foldr].
  - destruct s. reflexivity.
  - rewrite IH. reflexivity.
Qed.

Lemma delete_all_keys (m : gmap nat io_device_t) :
  foldr delete m (map_to_list m).*1 = ∅.
Proof.
  apply map_empty. intros i.
  assert (forall (ds : list nat) (m0 : gmap nat io_device_t),
            foldr delete m0 ds !! i = if decide (i ∈ ds) then None else m0 !! i) as Hfold.
  { induction ds as [|d ds IH]; intros m0; cbn [foldr]; [reflexivity|].
    destruct (decide (d = i)) as [->|Hne].
    - rewrite lookup_delete_eq. rewrite decide_True by (apply elem_of_cons; auto). reflexivity.
    - rewrite lookup_delete_ne, IH by exact Hne.
      destruct (decide (i ∈ ds)) as [Hin|Hout].
      + rewrite decide_True by (apply elem_of_cons; auto). reflexivity.
      + rewrite decide_False; [reflexivity|].
        intros [->|Hin]%elem_of_cons; [apply Hne; reflexivity | exact (Hout Hin)]. }
  rewrite Hfold. destruct (decide _) as [Hin|Hout]; [reflexivity|].
  destruct (m !! i) as [io|] eqn:Hi; [|reflexivity].
  exfalso. apply Hout. apply list_elem_of_fmap. exists (i, io).
  split; [reflexivity | apply elem_of_map_to_list, Hi].
Qed.

Lemma stop_eq (s : timer_epoll) :
  stop s =
  {| base := {| m_timer_list := heap_empty;
                m_is_thread_local := m_is_thread_local (base s);
                m_stopped := true |};
     m_common_timer_io_dev := None;
     m_recurring_timer_iodevs := ∅;
     this := this s; next_node := next_node s; next_iodev := next_iodev s;
     in_flight := in_flight s |}.
Proof.
  unfold stop. rewrite cancel_devices. cbn. rewrite delete_all_keys. reflexivity.
Qed.

Lemma stop_state_ok s : state_ok s -> state_ok (stop s).
Proof.
  intros Hok. rewrite stop_eq.
  apply (state_ok_sub s); [exact Hok | apply heap_empty_wf | | reflexivity |].
  - unfold entries. cbn. rewrite heap_empty_nodes. apply submseteq_inserts_l. reflexivity.
  - intros _. cbn. apply heap_empty_nodes.
Qed.

Lemma pop_due_timers_entries s now :
  state_ok s -> entries (pop_due_timers s now) ≡ₚ entries s.
Proof.
  intros (Hwf & _). unfold pop_due_timers.
  destruct (m_common_timer_io_dev s) as [io|]; [|reflexivity].
  destruct (pop_all_due_spec now _ Hwf) as (_ & Hperm & _).
  unfold entries. cbn [base m_timer_list in_flight]. rewrite Hperm.
  rewrite (Permutation_app_comm (in_flight s)), !app_assoc.
  rewrite (Permutation_app_comm (heap_nodes _) (pop_all_due now _).1). reflexivity.
Qed.

Lemma pop_due_timers_state_ok s now : state_ok s -> state_ok (pop_due_timers s now).
Proof.
  intros Hok. pose proof (pop_due_timers_entries s now Hok) as Hperm.
  pose proof Hok as (Hwf & _). revert Hperm. unfold pop_due_timers.
  destruct (m_common_timer_io_dev s) as [io|] eqn:Hio; [|intros _; exact Hok].
  intros Hperm.
  apply (state_ok_sub s); [exact Hok | | apply Permutation_submseteq, Hperm | reflexivity
                           | discriminate].
  apply (pop_all_due_spec now _ Hwf).
Qed.

Lemma call_next_state_ok s : state_ok s -> state_ok (call_next s).1.
Proof.
  intros Hok. unfold call_next. destruct (in_flight s) as [|n batch] eqn:Hbatch; [exact Hok|].
  cbn [fst]. pose proof Hok as (Hwf & _ & _ & Hdev).
  apply (state_ok_sub s); [exact Hok | exact Hwf | | reflexivity | exact Hdev].
  unfold entries. cbn. rewrite Hbatch.
  apply submseteq_skips_l. constructor. reflexivity.
Qed.

Lemma rearm_common_timer_queue s :
  base (rearm_common_timer s) = base s /\
  next_node (rearm_common_timer s) = next_node s /\
  next_iodev (rearm_common_timer s) = next_iodev s /\
  in_flight (rearm_common_timer s) = in_flight s /\
  m_recurring_timer_iodevs (rearm_common_timer s) = m_recurring_timer_iodevs s /\
  (m_common_timer_io_dev (rearm_common_timer s) = None <-> m_common_timer_io_dev s = None).
Proof.
  unfold rearm_common_timer.
  destruct (m_common_timer_io_dev s) as [io|] eqn:Hio; [|rewrite Hio; tauto].
  destruct (peek_min _); cbn; rewrite ?Hio; repeat split; discriminate.
Qed.

Lemma rearm_common_timer_state_ok s : state_ok s -> state_ok (rearm_common_timer s).
Proof.
  destruct (rearm_common_timer_queue s) as (Hb & Hn & _ & Hf & _ & Hdev).
  unfold state_ok, entries. rewrite Hb, Hn, Hf, Hdev. trivial.
Qed.

Lemma on_recurring_timer_queue s d :
  base (on_recurring_timer s d).1 = base s /\
  next_node (on_recurring_timer s d).1 = next_node s /\
  next_iodev (on_recurring_timer s d).1 = next_iodev s /\
  m_common_timer_io_dev (on_recurring_timer s d).1 = m_common_timer_io_dev s /\
  in_flight (on_recurring_timer s d).1 = in_flight s.
Proof.
  unfold on_recurring_timer. destruct (m_recurring_timer_iodevs s !! d); cbn; auto.
Qed.

Lemma on_recurring_timer_state_ok s d : state_ok s -> state_ok (on_recurring_timer s d).1.
Proof.
  destruct (on_recurring_timer_queue s d) as (Hb & Hn & _ & Hc & Hf).
  exact (state_ok_ext _ _ Hb Hn Hc Hf).
Qed.

Lemma step_state_ok s r : state_ok s -> state_ok (step s r).1.
Proof.
  intros Hok. destruct r as [now n rec c f ok|h| |[|d] now| |]; cbn [step fst].
  - apply schedule_state_ok, Hok.
  - apply cancel_state_ok, Hok.
  - apply stop_state_ok, Hok.
  - apply pop_due_timers_state_ok, Hok.
  - apply on_recurring_timer_state_ok, Hok.
  - apply call_next_state_ok, Hok.
  - apply rearm_common_timer_state_ok, Hok.
Qed.


Lemma reachable_state_ok self is_per_thread s :
  reachable self is_per_thread s -> state_ok s.
Proof.
  induction 1 as [|s r _ IH]; [apply state_ok_init | apply step_state_ok, IH].
Qed.


(** *** The handler in one piece and in parts *)

Lemma invocations_of_cons (n : heap_node) (batch : list heap_node) :
  invocations_of (n :: batch) = invocations_of [n] ++ invocations_of batch.
Proof. exact (omap_app _ [n] batch). Qed.

Lemma invocations_of_app (b1 b2 : list heap_node) :
  invocations_of (b1 ++ b2) = invocations_of b1 ++ invocations_of b2.
Proof. apply omap_app. Qed.

Lemma set_in_flight_same s : set_in_flight s (in_flight s) = s.
Proof. destruct s. reflexivity. Qed.

Lemma set_in_flight_twice s b1 b2 : set_in_flight (set_in_flight s b1) b2 = set_in_flight s b2.
Proof. reflexivity. Qed.

(** As many calls as the batch has entries call the callbacks of the whole
    batch, in its order. *)
Lemma run_callbacks s (batch : list heap_node) :
  in_flight s = batch ->
  run s (replicate (length batch) Callback) = (set_in_flight s [], invocations_of batch).
Proof.
  revert s. induction batch as [|n batch IH]; intros s Hs; cbn [length replicate run].
  - rewrite <- (set_in_flight_same s) at 1. rewrite Hs. reflexivity.
  - cbn [step]. unfold call_next. rewrite Hs.
    rewrite (IH (set_in_flight s batch) eq_refl), set_in_flight_twice.
    rewrite (invocations_of_cons n batch). reflexivity.
Qed.

(** [on_timer_armed] is the run of the handler's parts with nothing in
    between. *)
Lemma on_timer_armed_parts s now :
  on_timer_armed s common_dev now
  = run s (handler_requests now (in_flight (pop_due_timers s now))).
Proof.
  unfold handler_requests. cbn [run step].
  rewrite run_app, (run_callbacks _ _ eq_refl). cbn [fst snd run step].
  rewrite app_nil_r. reflexivity.
Qed.

(** *** The shared descriptor and the queue's minimum *)




(** The top of the queue after an insertion: the new node, or an old node
    that expires no later. *)
Lemma emplace_top (q : timer_heap_t) (k : handle_type) (ti : timer_info) :
  heap_wf q -> k ∉ (heap_nodes q).*1 ->
  exists n, heap_top (heap_emplace (k, ti) q) = Some n /\
    (n = (k, ti) \/
     (n.1 <> k /\ n ∈ heap_nodes q /\ expiry_time n.2 <= expiry_time ti)).
Proof.
  intros Hwf Hfresh.
  pose proof (heap_emplace_wf k ti q Hwf Hfresh) as Hwf'.
  pose proof (heap_emplace_nodes k ti q Hwf Hfresh) as Hperm.
  assert ((k, ti) ∈ heap_nodes (heap_emplace (k, ti) q)) as Hnew
    by (rewrite Hperm; apply elem_of_cons; auto).
  destruct (heap_top_is_Some _ _ Hwf' Hnew) as [n Htop]. exists n. split; [exact Htop|].
  destruct (heap_top_Some _ _ Hwf' Htop) as [Hin _].
  rewrite Hperm in Hin. apply elem_of_cons in Hin as [->|Hin]; [left; reflexivity|].
  right. split; [|split; [exact Hin|]].
  - intros Hk. apply Hfresh. apply list_elem_of_fmap. exists n. auto.
  - exact (heap_top_min _ n (k, ti) Hwf' Htop Hnew).
Qed.




Lemma stop_tracks s : descriptor_tracks_minimum (stop s).
Proof.
  rewrite stop_eq. unfold descriptor_tracks_minimum, armed_deadline, peek_min. cbn.
  rewrite heap_top_empty. reflexivity.
Qed.













(** *** What a one-shot [schedule] inserts *)

(** Where the deadline fits the clock's signed 64-bit count, a one-shot
    [schedule] on a scheduler that is not stopped, with a callback and a
    shared descriptor that exists or can be created, adds exactly one entry
    to the Deadline Queue: its expiry is the time at the call plus the
    delay, its callback and context are the ones passed; the call returns
    the queue variant of the handle, which designates that entry. *)
Lemma schedule_oneshot_inserts_entry (self : ptr) (is_per_thread : bool)
    (s : timer_epoll) (now : time_point) (d : uint64_t) (c : ptr) (f : callable)
    (os_ok : bool) :
  reachable self is_per_thread s ->
  m_stopped (base s) = false ->
  m_common_timer_io_dev s <> None \/ os_ok = true ->
  - 2 ^ 63 <= now -> now + u64_val d < 2 ^ 63 ->
  (schedule s now d false c (Some f) os_ok).2 = inr (heap_handle (next_node s)) /\
  heap_nodes (m_timer_list (base (schedule s now d false c (Some f) os_ok).1))
    ≡ₚ (next_node s,
        {| expiry_time := now + u64_val d; cb := Some f; context := c;
           parent_timer := this s |})
       :: heap_nodes (m_timer_list (base s)).
Proof.
  intros Hreach Hactive Hdev Hnow Hsum.
  pose proof (reachable_state_ok _ _ _ Hreach) as Hok.
  pose proof (next_node_not_queued s Hok) as Hfresh. destruct Hok as [Hwf _].
  assert (exists io, oneshot_dev s os_ok = Some io) as [io Hio].
  { unfold oneshot_dev, setup_timer_fd.
    destruct (m_common_timer_io_dev s) as [io|]; [eauto|].
    destruct Hdev as [Hdev| ->]; [congruence | eauto]. }
  unfold schedule. rewrite Hactive.
  assert (delay_is_negative d = false) as ->.
  { unfold delay_is_negative. apply Z.ltb_ge. apply u64_bounds. }
  rewrite (schedule_oneshot_Some _ _ _ _ _ _ io Hio). cbn zeta. cbn [fst snd base m_timer_list].
  split; [reflexivity|].
  rewrite heap_emplace_nodes by assumption.
  unfold timer_info_ctor. fold (nanoseconds d).
  change (time_point_plus now (nanoseconds d))
    with (expiry_time (timer_info_ctor now d c (Some f) (this s))).
  rewrite timer_info_ctor_expiry by assumption. reflexivity.
Qed.

(** *** The delay argument *)

(** C9.  The delay of [schedule] is a [uint64_t]: whatever value is passed
    it is not negative, the test of the rejection branch for negative
    delays is false, and [schedule] never reports that failure. *)
Theorem schedule_delay_never_negative (nanos_after : uint64_t) :
  0 <= u64_val nanos_after /\
  delay_is_negative nanos_after = false /\
  forall (s : timer_epoll) (now : time_point) (recurring : bool) (cookie : ptr)
         (timer_fn : timer_callback_t) (os_ok : bool),
    (schedule s now nanos_after recurring cookie timer_fn os_ok).2 <> inl E_NEGATIVE_DELAY.
Proof.
  pose proof (u64_bounds nanos_after) as Hb.
  assert (delay_is_negative nanos_after = false) as Hneg
    by (unfold delay_is_negative; apply Z.ltb_ge; lia).
  split; [lia|]. split; [exact Hneg|].
  intros s now recurring cookie timer_fn os_ok. unfold schedule. rewrite Hneg.
  destruct (m_stopped (base s)); [discriminate|].
  destruct timer_fn as [f|]; [|discriminate].
  destruct recurring.
  - unfold schedule_recurring. destruct (setup_timer_fd s os_ok); discriminate.
  - unfold schedule_oneshot. destruct (oneshot_dev s os_ok); discriminate.
Qed.

(** *** What a step can add, and whom it calls *)


















(** Cancelling a handle whose timer is not scheduled changes nothing. *)
Lemma cancel_stale_unchanged s h : ~ timer_live s h -> cancel s h = s.
Proof.
  destruct h as [k|[d|]]; cbn; intros Hdead.
  - rewrite heap_erase_absent by exact Hdead. destruct s as [[q l st] io re t n1 n2 b].
    reflexivity.
  - unfold set_recurring. rewrite delete_id.
    + destruct s. reflexivity.
    + destruct (m_recurring_timer_iodevs s !! d) eqn:Hd; [|reflexivity].
      exfalso. apply Hdead. eauto.
  - reflexivity.
Qed.

Lemma cancel_null_handle s : cancel s null_timer_handle = s.
Proof. reflexivity. Qed.




(** *** Stopping *)

Lemma schedule_stopped s now nanos_after recurring cookie timer_fn os_ok :
  m_stopped (base s) = true ->
  schedule s now nanos_after recurring cookie timer_fn os_ok = (s, inl E_STOPPED).
Proof. unfold schedule. intros ->. reflexivity. Qed.

Lemma step_stays_stopped s r :
  m_stopped (base s) = true -> m_stopped (base (step s r).1) = true.
Proof.
  intros Hs. destruct r as [now n rec c f ok|h| |[|d] now| |]; cbn [step fst].
  - rewrite schedule_stopped by exact Hs. exact Hs.
  - destruct h as [k|[d|]]; exact Hs.
  - rewrite stop_eq. reflexivity.
  - unfold pop_due_timers. destruct (m_common_timer_io_dev s) as [io|]; exact Hs.
  - destruct (on_recurring_timer_queue s d) as (-> & _). exact Hs.
  - unfold call_next. destruct (in_flight s); exact Hs.
  - destruct (rearm_common_timer_queue s) as (-> & _). exact Hs.
Qed.

Lemma run_stays_stopped s rs :
  m_stopped (base s) = true -> m_stopped (base (run s rs).1) = true.
Proof.
  revert s. induction rs as [|r rs IH]; intros s Hs; cbn [run]; [exact Hs|].
  pose proof (step_stays_stopped s r Hs) as Hs1.
  destruct (step s r) as [s1 calls1]. specialize (IH s1 Hs1).
  destruct (run s1 rs) as [s2 calls2]. exact IH.
Qed.

(** C5.  Once [stop] has been called the scheduler stays stopped whatever
    is requested next, and every [schedule], one-shot or recurring, reports
    the failure and returns the scheduler as it was: nothing is inserted and
    no descriptor is created. *)
Theorem stopped_scheduler_rejects_schedule (s0 : timer_epoll) (rs : list request) :
  m_stopped (base (run (stop s0) rs).1) = true /\
  forall (now : time_point) (nanos_after : uint64_t) (recurring : bool) (cookie : ptr)
         (timer_fn : timer_callback_t) (os_ok : bool),
    schedule (run (stop s0) rs).1 now nanos_after recurring cookie timer_fn os_ok
    = ((run (stop s0) rs).1, inl E_STOPPED).
Proof.
  assert (m_stopped (base (run (stop s0) rs).1) = true) as Hs.
  { apply run_stays_stopped. rewrite stop_eq. reflexivity. }
  split; [exact Hs|]. intros. apply schedule_stopped, Hs.
Qed.

(** A step that is no [schedule], or any step of a stopped scheduler, adds
    no timer when no timer is scheduled; the only callback it can call is
    that of the first entry of the handler's batch. *)
Lemma step_no_timers s r :
  is_schedule r = false \/ m_stopped (base s) = true ->
  no_timers s ->
  no_timers (step s r).1 /\
  exists j : nat,
    (step s r).2 = invocations_of (take j (in_flight s)) /\
    in_flight (step s r).1 = drop j (in_flight s).
Proof.
  intros Hr (Hq & Hre & Hco).
  destruct r as [now n rec c f ok|h| |[|d] now| |]; cbn [step fst snd].
  - destruct Hr as [[=]|Hs]. rewrite schedule_stopped by exact Hs.
    split; [repeat split; assumption | exists 0%nat; auto].
  - rewrite cancel_stale_unchanged; [split; [repeat split; assumption | exists 0%nat; auto]|].
    destruct h as [k|[d|]]; cbn; [| |tauto].
    + rewrite Hq. apply not_elem_of_nil.
    + rewrite Hre, lookup_empty. intros [? [=]].
  - rewrite stop_eq. split; [|exists 0%nat; auto]. repeat split. cbn. apply heap_empty_nodes.
  - unfold pop_due_timers. rewrite Hco.
    split; [repeat split; assumption | exists 0%nat; auto].
  - unfold on_recurring_timer. rewrite Hre, lookup_empty.
    split; [repeat split; assumption | exists 0%nat; auto].
  - unfold call_next. destruct (in_flight s) as [|m batch] eqn:Hbatch; cbn [fst snd].
    + split; [repeat split; assumption | exists 0%nat; rewrite Hbatch; auto].
    + split; [repeat split; assumption | exists 1%nat; auto].
  - unfold rearm_common_timer. rewrite Hco.
    split; [repeat split; assumption | exists 0%nat; auto].
Qed.

Lemma run_no_timers s rs :
  forallb (fun r => negb (is_schedule r)) rs = true \/ m_stopped (base s) = true ->
  no_timers s ->
  no_timers (run s rs).1 /\
  exists j : nat,
    (run s rs).2 = invocations_of (take j (in_flight s)) /\
    in_flight (run s rs).1 = drop j (in_flight s).
Proof.
  revert s. induction rs as [|r rs IH]; intros s Hrs Hnone; cbn [run];
    [split; [exact Hnone | exists 0%nat; auto]|].
  assert (is_schedule r = false \/ m_stopped (base s) = true) as Hr.
  { destruct Hrs as [Hrs|Hs]; [left|right; exact Hs].
    cbn [forallb] in Hrs. apply andb_prop in Hrs as [Hr _]. apply negb_true_iff, Hr. }
  destruct (step_no_timers s r Hr Hnone) as (Hnone1 & j1 & Hcalls1 & Hbatch1).
  assert (forallb (fun r => negb (is_schedule r)) rs = true \/
          m_stopped (base (step s r).1) = true) as Hrs1.
  { destruct Hrs as [Hrs|Hs]; [left|right; apply step_stays_stopped, Hs].
    cbn [forallb] in Hrs. apply andb_prop in Hrs as [_ Hrs]. exact Hrs. }
  destruct (step s r) as [s1 calls1]. cbn [fst snd] in *.
  destruct (IH s1 Hrs1 Hnone1) as (Hnone2 & j2 & Hcalls2 & Hbatch2).
  destruct (run s1 rs) as [s2 calls2]. cbn [fst snd] in *.
  split; [exact Hnone2|]. exists (j1 + j2)%nat. subst calls1 calls2.
  rewrite Hbatch2, Hbatch1, <- invocations_of_app, take_take_drop, drop_drop. auto.
Qed.




(** *** Construction *)

(** C8.  The constructor of [timer] sets the scope flag and nothing else:
    the scheduler starts not stopped, with an empty Deadline Queue.  The
    engine built on it starts with an empty recurring set and no shared
    descriptor, and for as long as no [schedule] is requested there is no
    entry and no descriptor, and no callback is called. *)
Theorem new_scheduler_is_active_and_empty (self : ptr) (is_per_thread : bool) :
  m_is_thread_local (timer_ctor is_per_thread) = is_per_thread /\
  m_stopped (timer_ctor is_per_thread) = false /\
  m_timer_list (timer_ctor is_per_thread) = heap_empty /\
  heap_nodes (m_timer_list (timer_ctor is_per_thread)) = [] /\
  base (timer_epoll_ctor self is_per_thread) = timer_ctor is_per_thread /\
  no_timers (timer_epoll_ctor self is_per_thread) /\
  forall rs : list request,
    forallb (fun r => negb (is_schedule r)) rs = true ->
    no_timers (run (timer_epoll_ctor self is_per_thread) rs).1 /\
    (run (timer_epoll_ctor self is_per_thread) rs).2 = [].
Proof.
  assert (no_timers (timer_epoll_ctor self is_per_thread)) as Hnone.
  { repeat split. cbn. apply heap_empty_nodes. }
  split; [reflexivity|]. split; [reflexivity|]. split; [reflexivity|].
  split; [cbn; apply heap_empty_nodes|]. split; [reflexivity|]. split; [exact Hnone|].
  intros rs Hrs.
  destruct (run_no_timers _ rs (or_introl Hrs) Hnone) as (Hnone' & j & Hcalls & _).
  split; [exact Hnone'|]. rewrite Hcalls. cbn [timer_epoll_ctor in_flight].
  rewrite take_nil. reflexivity.
Qed.
(** *** The top of the queue *)

(** X7.  With [compare_timer] for its ordering the queue hands out the
    earliest deadline: the top of a non-empty queue expires no later than
    any entry; putting an entry in makes the earlier of its expiry and the
    old top's the expiry of the top; and neither [pop] nor [erase] makes
    the top expire earlier.  An entry put into an empty queue is its top. *)
Theorem timer_heap_top_is_earliest (q : timer_heap_t) :
  heap_wf q ->
  match heap_top q with
  | Some n =>
      (forall n', n' ∈ heap_nodes q -> expiry_le n n') /\
      (forall k ti, k ∉ (heap_nodes q).*1 ->
         exists m, heap_top (heap_emplace (k, ti) q) = Some m /\
                   expiry_time m.2 = Z.min (expiry_time n.2) (expiry_time ti)) /\
      (forall m, heap_top (heap_pop q) = Some m -> expiry_le n m) /\
      (forall k m, heap_top (heap_erase k q) = Some m -> expiry_le n m)
  | None =>
      heap_nodes q = [] /\
      forall k ti, heap_top (heap_emplace (k, ti) q) = Some (k, ti)
  end.
Proof.
  intros Hwf. unfold expiry_le. destruct (heap_top q) as [n|] eqn:Htop.
  - split; [intros n' Hn'; exact (heap_top_min q n n' Hwf Htop Hn')|].
    split; [|split].
    + intros k ti Hfresh.
      destruct (emplace_top q k ti Hwf Hfresh) as (m & Hm & Hcase).
      exists m. split; [exact Hm|].
      pose proof (heap_emplace_wf k ti q Hwf Hfresh) as Hwf'.
      assert (n ∈ heap_nodes (heap_emplace (k, ti) q)) as Hn.
      { rewrite heap_emplace_nodes by assumption. apply elem_of_cons. right.
        exact (proj1 (heap_top_Some q n Hwf Htop)). }
      pose proof (heap_top_min _ m n Hwf' Hm Hn) as Hmn.
      destruct Hcase as [->|(_ & Hin & Hle)]; cbn [snd] in *.
      * lia.
      * pose proof (heap_top_min q n m Hwf Htop Hin). lia.
    + intros m Hm. apply (heap_top_min q n m Hwf Htop).
      pose proof (heap_pop_wf q n Hwf Htop) as Hwf'.
      rewrite (heap_pop_nodes q n Hwf Htop). apply elem_of_cons. right.
      exact (proj1 (heap_top_Some _ m Hwf' Hm)).
    + intros k m Hm. apply (heap_top_min q n m Hwf Htop).
      pose proof (heap_erase_wf k q Hwf) as Hwf'.
      pose proof (proj1 (heap_top_Some _ m Hwf' Hm)) as Hin.
      rewrite heap_erase_nodes in Hin by exact Hwf.
      apply list_elem_of_filter in Hin as [_ Hin]. exact Hin.
  - pose proof (heap_top_None q Hwf Htop) as Hnil. split; [exact Hnil|].
    intros k ti.
    assert (k ∉ (heap_nodes q).*1) as Hfresh by (rewrite Hnil; apply not_elem_of_nil).
    destruct (emplace_top q k ti Hwf Hfresh) as (m & Hm & Hcase).
    rewrite Hm. f_equal. destruct Hcase as [->|(_ & Hin & _)]; [reflexivity|].
    rewrite Hnil in Hin. apply elem_of_nil in Hin as [].
Qed.

End SchedulerFacts.

(** * Concrete schedulers *)

(** Delays of ten and twenty nanoseconds, and one of [2 ^ 63]. *)
Definition delay_10 : uint64_t := mk_uint64 10 eq_refl.
Definition delay_20 : uint64_t := mk_uint64 20 eq_refl.
Definition delay_2_63 : uint64_t := mk_uint64 (2 ^ 63) eq_refl.

(** A new thread-local scheduler at address 1, on the binomial heap. *)
Definition fresh : timer_epoll (TH := binomial_heap) := timer_epoll_ctor 1%nat true.

(** An entry of that scheduler with a given expiry. *)
Definition entry (expiry : time_point) : timer_info :=
  {| expiry_time := expiry; cb := Some 7%nat; context := 0%nat; parent_timer := 1%nat |}.

(** Three entries, inserted latest deadline first. *)
Definition three_entries : list heap_node :=
  [(0%nat, entry 30); (1%nat, entry 10); (2%nat, entry 20)].

(** Two one-shot timers, the later deadline first. *)
Definition two_timers : list request :=
  [Schedule 0 delay_20 false 0%nat (Some 7%nat) true;
   Schedule 0 delay_10 false 0%nat (Some 8%nat) true].




(** The two timers and a notification between the two deadlines, handled
    from its first part to its last. *)
Definition two_timers_one_fired : list request :=
  two_timers ++ [Notify common_dev 15; Callback; Rearm].

(** Two timers of which the earlier has fired: while its callback is
    waiting the descriptor is acknowledged; in the end the callback has
    been called and the descriptor is armed for the timer that is left.
    The handler in one piece does the same. *)
Example descriptor_armed_for_remaining_timer :
  in_flight (run fresh (two_timers ++ [Notify common_dev 15])).1
  = [(1%nat, {| expiry_time := 10; cb := Some 8%nat; context := 0%nat; parent_timer := 1%nat |})] /\
  armed_deadline (run fresh (two_timers ++ [Notify common_dev 15])).1 = None /\
  (run fresh two_timers_one_fired).2
  = [{| inv_fn := 8%nat; inv_context := 0%nat; inv_timer := heap_handle 1%nat |}] /\
  armed_deadline (run fresh two_timers_one_fired).1 = Some 20 /\
  on_timer_fd_notification (run fresh two_timers).1 common_dev 15
  = ((run fresh two_timers_one_fired).1,
     [{| inv_fn := 8%nat; inv_context := 0%nat; inv_timer := heap_handle 1%nat |}]).
Proof. repeat split; vm_compute; reflexivity. Qed.


(** Three entries, popped between the first two deadlines and at the
    last. *)
Lemma pop_all_due_exact_ascending_witness :
  ((pop_all_due 15 (insert_all three_entries)).1
     ≡ₚ filter (fun n : heap_node => expiry_time n.2 <= 15) (heap_nodes (insert_all three_entries)) /\
   heap_nodes (pop_all_due 15 (insert_all three_entries)).2
     ≡ₚ filter (fun n : heap_node => ~ expiry_time n.2 <= 15) (heap_nodes (insert_all three_entries)) /\
   StronglySorted expiry_le (pop_all_due 15 (insert_all three_entries)).1) /\
  ((pop_all_due 30 (insert_all three_entries)).1 ≡ₚ three_entries /\
   length (pop_all_due 30 (insert_all three_entries)).1 = length three_entries /\
   StronglySorted expiry_lt (pop_all_due 30 (insert_all three_entries)).1 /\
   heap_nodes (pop_all_due 30 (insert_all three_entries)).2 = []).
Proof.
  split.
  - apply (proj1 (pop_all_due_exact_ascending (TH := binomial_heap)) 15 (insert_all three_entries)).
    apply insert_all_spec. apply (bool_decide_unpack _). vm_compute. exact I.
  - apply (proj2 (pop_all_due_exact_ascending (TH := binomial_heap)) 30 three_entries).
    + apply (bool_decide_unpack _). vm_compute. exact I.
    + apply (bool_decide_unpack _). vm_compute. exact I.
    + repeat constructor; cbn; lia.
Defined.


(** C3.  A delay of [2 ^ 63] nanoseconds is a value of the interface's
    type.  At time 0 the constructor of [timer_info] gives the record an
    expiry of [- 2 ^ 63], before the call, where the time of the call plus
    the delay is [2 ^ 63]; and that record is the entry a one-shot
    [schedule] inserts, under the queue variant of the handle. *)
Theorem schedule_wraps_long_delay :
  0 <= u64_val delay_2_63 /\
  expiry_time (timer_info_ctor 0 delay_2_63 2%nat (Some 3%nat) 1%nat) = - 2 ^ 63 /\
  expiry_time (timer_info_ctor 0 delay_2_63 2%nat (Some 3%nat) 1%nat) <> 0 + u64_val delay_2_63 /\
  (schedule fresh 0 delay_2_63 false 2%nat (Some 3%nat) true).2 = inr (heap_handle 0%nat) /\
  heap_nodes (m_timer_list (base (schedule fresh 0 delay_2_63 false 2%nat (Some 3%nat) true).1))
  = [(0%nat, {| expiry_time := - 2 ^ 63; cb := Some 3%nat; context := 2%nat;
                parent_timer := 1%nat |})].
Proof.
  split; [vm_compute; discriminate|]. split; [vm_compute; reflexivity|].
  split; [vm_compute; discriminate|]. split; vm_compute; reflexivity.
Qed.




(** A new scheduler that is asked anything but [schedule]. *)
Lemma new_scheduler_is_active_and_empty_witness :
  no_timers (run fresh [Cancel (heap_handle 0%nat); Notify common_dev 5; Stop]).1 /\
  (run fresh [Cancel (heap_handle 0%nat); Notify common_dev 5; Stop]).2 = [].
Proof.
  apply (new_scheduler_is_active_and_empty (TH := binomial_heap) 1%nat true).
  reflexivity.
Defined.

(** A later expiry, and two records that share an expiry and nothing
    else. *)
Lemma compare_timer_is_expires_later_witness :
  compare_timer (entry 10) (timer_info_of_parent 1%nat) = true /\
  compare_timer (entry 10) (mk_timer_info 10 None 3%nat 4%nat) = false /\
  compare_timer (mk_timer_info 10 None 3%nat 4%nat) (entry 10) = false.
Proof.
  split.
  - apply (proj1 (compare_timer_is_expires_later (entry 10) (timer_info_of_parent 1%nat))).
    unfold expires_later. cbn. lia.
  - apply (proj2 (proj2 (compare_timer_is_expires_later (entry 10)
                           (mk_timer_info 10 None 3%nat 4%nat)))).
    reflexivity.
Defined.

(** The record of a timer of ten nanoseconds built at time 100. *)
Lemma timer_info_ctor_fields_witness :
  expiry_time (timer_info_ctor 100 delay_10 5%nat (Some 7%nat) 1%nat) = 100 + u64_val delay_10.
Proof.
  apply (proj2 (proj2 (proj2 (timer_info_ctor_fields 100 delay_10 5%nat (Some 7%nat) 1%nat)))).
  - vm_compute. discriminate.
  - vm_compute. reflexivity.
Defined.

(** The record of a timer of [2 ^ 63] nanoseconds built at time 5. *)
Lemma timer_info_ctor_long_delay_witness :
  expiry_time (timer_info_ctor 5 delay_2_63 5%nat (Some 7%nat) 1%nat)
  = 5 + u64_val delay_2_63 - 2 ^ 64 /\
  expiry_time (timer_info_ctor 5 delay_2_63 5%nat (Some 7%nat) 1%nat) < 5.
Proof.
  apply (timer_info_ctor_long_delay 5 delay_2_63 5%nat (Some 7%nat) 1%nat).
  - split; [vm_compute; discriminate | vm_compute; reflexivity].
  - vm_compute. discriminate.
Defined.

(** Three records that expire at 10, 20 and 30. *)
Lemma compare_timer_strict_weak_order_witness :
  compare_timer (entry 20) (entry 30) = false /\
  compare_timer (entry 30) (entry 10) = true.
Proof.
  destruct compare_timer_strict_weak_order as (_ & Hasym & Htrans & _).
  split.
  - apply Hasym. reflexivity.
  - apply (Htrans (entry 30) (entry 20) (entry 10)); reflexivity.
Defined.

(** A delay of minus one passed through the interface at time 100, and the
    delay of ten nanoseconds passed back and forth. *)
Lemma delay_conversion_round_trips_witness :
  nanoseconds (to_uint64 (-1)) = -1 /\
  expiry_time (timer_info_ctor 100 (to_uint64 (-1)) 5%nat (Some 7%nat) 1%nat) = 100 + -1 /\
  (nanoseconds delay_10 = nanoseconds (to_uint64 10) ->
   u64_val delay_10 = u64_val (to_uint64 10)).
Proof.
  destruct delay_conversion_round_trips as (Hsigned & Hexpiry & _ & Hinj).
  split; [|split].
  - apply Hsigned. split; [vm_compute; discriminate | vm_compute; reflexivity].
  - apply Hexpiry; split; first [vm_compute; discriminate | vm_compute; reflexivity].
  - apply Hinj.
Defined.

(** Twenty and ten nanoseconds from time 100. *)
Lemma constructed_timers_rank_by_deadline_witness :
  compare_timer (timer_info_ctor 100 delay_20 0%nat (Some 7%nat) 1%nat)
                (timer_info_ctor 100 delay_10 0%nat (Some 8%nat) 1%nat) = true.
Proof.
  apply (proj1 (constructed_timers_rank_by_deadline 100 100 delay_20 delay_10
                  0%nat 0%nat (Some 7%nat) (Some 8%nat) 1%nat 1%nat
                  ltac:(vm_compute; discriminate) ltac:(vm_compute; reflexivity)
                  ltac:(vm_compute; discriminate) ltac:(vm_compute; reflexivity))).
  vm_compute. reflexivity.
Defined.

(** Ten nanoseconds and [2 ^ 63] nanoseconds from time 5. *)
Lemma long_delay_expires_first_witness :
  compare_timer (timer_info_ctor 5 delay_10 0%nat (Some 7%nat) 1%nat)
                (timer_info_ctor 5 delay_2_63 0%nat (Some 8%nat) 1%nat) = true /\
  compare_timer (timer_info_ctor 5 delay_2_63 0%nat (Some 8%nat) 1%nat)
                (timer_info_ctor 5 delay_10 0%nat (Some 7%nat) 1%nat) = false.
Proof.
  apply (long_delay_expires_first 5 delay_10 delay_2_63).
  - vm_compute. discriminate.
  - vm_compute. reflexivity.
  - vm_compute. discriminate.
Defined.

(** The queue of the three entries, whose top is the entry that expires at
    10. *)
Lemma timer_heap_top_is_earliest_witness :
  match heap_top (insert_all three_entries) with
  | Some n =>
      (forall n', n' ∈ heap_nodes (insert_all three_entries) -> expiry_le n n') /\
      (forall k ti, k ∉ (heap_nodes (insert_all three_entries)).*1 ->
         exists m, heap_top (heap_emplace (k, ti) (insert_all three_entries)) = Some m /\
                   expiry_time m.2 = Z.min (expiry_time n.2) (expiry_time ti)) /\
      (forall m, heap_top (heap_pop (insert_all three_entries)) = Some m -> expiry_le n m) /\
      (forall k m, heap_top (heap_erase k (insert_all three_entries)) = Some m ->
                   expiry_le n m)
  | None =>
      heap_nodes (insert_all three_entries) = [] /\
      forall k ti, heap_top (heap_emplace (k, ti) (insert_all three_entries)) = Some (k, ti)
  end.
Proof.
  apply (timer_heap_top_is_earliest (TH := binomial_heap) (insert_all three_entries)).
  apply insert_all_spec. apply (bool_decide_unpack _). vm_compute. exact I.
Defined.
